(** * maildotapp: locating and unwrapping Mail.app message files

    A shallow embedding of [mail.go] (package [maildotapp]) together with
    the properties its specification states about it.

    Go strings are byte sequences and are embedded as [string]; file
    contents ([[]byte]) are embedded as [list byte]; Go's [int] is a
    64-bit integer and is embedded as [Z]; the two Go maps of
    [gatherMboxPaths] are a [gmap] and a [gset]. A Go function that
    may panic returns a [Go A]. *)

From Stdlib Require Import ZArith Lia Ascii String List Sorted.
From Stdlib Require Strings.Byte.
From stdpp Require Import gmap strings list fin_maps sorting.

Local Open Scope Z_scope.

(** ** Outcomes of Go calls *)

Inductive PanicKind :=
| IndexOutOfRange (index len : nat)
| NilDereference.

Inductive Go (A : Type) :=
| Done (a : A)
| Panicked (p : PanicKind).
Arguments Done {A} a.
Arguments Panicked {A} p.

#[global] Instance Go_ret : MRet Go := @Done.
#[global] Instance Go_bind : MBind Go := fun A B k m =>
  match m with
  | Done a => k a
  | Panicked p => Panicked p
  end.

(** ** The [strings] package, as far as [mail.go] uses it *)

Module Strings.

(** [strings.HasPrefix(s, prefix)] *)
Fixpoint HasPrefix (s prefix : string) {struct prefix} : bool :=
  match prefix, s with
  | EmptyString, _ => true
  | String _ _, EmptyString => false
  | String p prefix', String c s' =>
      if Ascii.eqb c p then HasPrefix s' prefix' else false
  end.

(** The scan of [strings.Replace(s, old, "", -1)] for a non-empty
    [old]: matches are found leftmost first and do not overlap;
    [skip] counts the bytes of the current match still to drop. *)
Fixpoint removeFrom (old : string) (skip : nat) (s : string) : string :=
  match s with
  | EmptyString => EmptyString
  | String c s' =>
      match skip with
      | S k => removeFrom old k s'
      | O =>
          if HasPrefix s old
          then removeFrom old (String.length old - 1) s'
          else String c (removeFrom old 0 s')
      end
  end.

(** [strings.Replace(s, old, "", -1)]. With an empty [old] Go
    inserts the (empty) replacement at every rune boundary, which
    leaves [s] as it is. *)
Definition RemoveAll (s old : string) : string :=
  match old with
  | EmptyString => s
  | String _ _ => removeFrom old 0 s
  end.

(** Go's conversion [string(b)] of a byte [b]: the UTF-8 encoding of
    the code point with that number, one byte below 0x80 and two
    bytes from there on. *)
Definition string_of_byte (b : ascii) : string :=
  let n := nat_of_ascii b in
  if (n <? 128)%nat then String b EmptyString
  else String (ascii_of_nat (192 + n / 64))
         (String (ascii_of_nat (128 + n mod 64)) EmptyString).

(** [s[i]], which panics out of range. *)
Definition index (s : string) (i : nat) : Go ascii :=
  match String.get i s with
  | Some c => Done c
  | None => Panicked (IndexOutOfRange i (String.length s))
  end.

(** [strings.HasSuffix(s, suffix)] *)
Definition HasSuffix (s suffix : string) : bool :=
  (String.length suffix <=? String.length s)%nat
  && String.eqb (String.substring (String.length s - String.length suffix)
                   (String.length suffix) s) suffix.

End Strings.

(** ** Shard path of a row identifier *)

(** [emlPathFromROWID]: the arguments of [fmt.Sprintf] are evaluated
    left to right, so [ROWID[2]] is the first index to be checked. *)
Definition emlPathFromROWID (ROWID : string) : Go string :=
  c2 ← Strings.index ROWID 2;
  c1 ← Strings.index ROWID 1;
  c0 ← Strings.index ROWID 0;
  Done (Strings.string_of_byte c2 +:+ "/" +:+ Strings.string_of_byte c1 +:+ "/"
        +:+ Strings.string_of_byte c0 +:+ "/Messages/" +:+ ROWID).

(** ** The [path] and [path/filepath] packages (Unix) *)

Module Path.

(** The elements of a path between its slashes, empty ones included. *)
Fixpoint elements (path : string) : list string :=
  match path with
  | EmptyString => [EmptyString]
  | String c rest =>
      if Ascii.eqb c "/" then EmptyString :: elements rest
      else match elements rest with
           | e :: es => String c e :: es
           | [] => [String c EmptyString]
           end
  end.

(** One element of the loop of [Clean]. [out] holds the elements
    written so far, the last one first. An empty element and [.] are
    dropped; [..] removes the last element when there is one to go
    back over, is kept when the path is not rooted, and is dropped
    at the root. *)
Definition cleanElement (rooted : bool) (out : list string) (e : string)
  : list string :=
  if String.eqb e "" || String.eqb e "." then out
  else if String.eqb e ".." then
    match out with
    | top :: out' =>
        if String.eqb top ".." then ".." :: out else out'
    | [] => if rooted then [] else [".."]
    end
  else e :: out.

Fixpoint joinSlash (es : list string) : string :=
  match es with
  | [] => ""
  | [e] => e
  | e :: es' => e +:+ "/" +:+ joinSlash es'
  end.

(** [path.Clean], which on Unix is also [filepath.Clean]. *)
Definition Clean (path : string) : string :=
  match path with
  | EmptyString => "."
  | String c _ =>
      let rooted := Ascii.eqb c "/" in
      let out := fold_left (cleanElement rooted) (elements path) [] in
      let body := joinSlash (rev out) in
      if rooted then "/" +:+ body
      else if String.eqb body "" then "." else body
  end.

(** [path.Join] and [filepath.Join]: the non-empty elements joined
    by slashes and cleaned; the empty string when there is none. *)
Definition Join (elem : list string) : string :=
  match filter (fun e => negb (String.eqb e "")) elem with
  | [] => ""
  | es => Clean (joinSlash es)
  end.

End Path.

(** ** The mail library on disk *)

(** Errors of the operating system, as far as the code tells them
    apart: [os.IsNotExist] holds of [ENOENT] only. *)
Inductive OSError := ENOENT | EACCES | EPERM | EIO.

#[global] Instance OSError_eq_dec : EqDecision OSError.
Proof. solve_decision. Defined.

Definition IsNotExist (e : OSError) : bool := bool_decide (e = ENOENT).

(** What the walk finds at a path: a file, a directory with its
    entries in the order [os.ReadDir] lists them (sorted by name), or
    a directory whose listing fails. *)
#[warnings="-register-all"]
Inductive Node :=
| File
| Dir (entries : list (string * Node))
| Unreadable (e : OSError).

Definition IsDir (d : Node) : bool :=
  match d with
  | File => false
  | Dir _ | Unreadable _ => true
  end.

(** [os.Stat(filepath.Join(path, name))] on a visited directory
    succeeds when the directory has an entry of that name. *)
Definition statEntry (d : Node) (name : string) : option OSError :=
  match d with
  | Dir entries =>
      if bool_decide (name ∈ entries.*1) then None else Some ENOENT
  | File => Some ENOENT
  | Unreadable e => Some e
  end.

(** What a [fs.WalkDirFunc] returns besides [nil]. *)
Inductive WalkError :=
| SkipDir
| Failed (e : OSError).

Module Walk.

Section WithState.
Context {St : Type}.
(** the callback: path, name and node of the entry, the error of
    the listing if any, and the state the closure captures *)
Variable fn : string -> string -> Node -> option OSError -> St
              -> option WalkError * St.

(** the error handling after a call of the callback *)
Definition afterCall (d : Node) (r : option WalkError * St)
  : option WalkError * St :=
  match r with
  | (Some SkipDir, st) => (if IsDir d then None else Some SkipDir, st)
  | _ => r
  end.

(** The loop of [walkDir] over the entries of a directory: [SkipDir]
    from an entry ends the loop, another error ends the walk. *)
Fixpoint walkEntries (walk : string -> string -> Node -> St -> option WalkError * St)
  (path : string) (ds : list (string * Node)) (st : St)
  : option WalkError * St :=
  match ds with
  | [] => (None, st)
  | (name1, d1) :: ds' =>
      match walk (Path.Join [path; name1]) name1 d1 st with
      | (Some SkipDir, st') => (None, st')
      | (Some (Failed e), st') => (Some (Failed e), st')
      | (None, st') => walkEntries walk path ds' st'
      end
  end.

(** [filepath.walkDir] *)
Fixpoint walkDir (path name : string) (d : Node) (st : St)
  : option WalkError * St :=
  match fn path name d None st with
  | (Some e, st1) => afterCall d (Some e, st1)
  | (None, st1) =>
      match d with
      | File => (None, st1)
      | Unreadable e =>
          match fn path name d (Some e) st1 with
          | (Some e', st2) => afterCall d (Some e', st2)
          | (None, st2) => (None, st2)
          end
      | Dir entries => walkEntries walkDir path entries st1
      end
  end.

(** the base name [os.Lstat(root).Name()] reports: the last
    non-empty element of the path *)
Definition baseName (root : string) : string :=
  match filter (fun e => negb (String.eqb e "")) (Path.elements root) with
  | [] => "/"
  | es => List.last es ""
  end.

(** [filepath.WalkDir]; [disk] is what [os.Lstat] finds at [root],
    a node or an error. With an error the callback is called once,
    with no entry: [File] stands for the [nil] it is handed. *)
Definition WalkDir (root : string) (disk : Node + OSError) (st : St)
  : option OSError * St :=
  let r :=
    match disk with
    | inr e => fn root "" File (Some e) st
    | inl d => walkDir root (baseName root) d st
    end in
  match r with
  | (Some (Failed e), st') => (Some e, st')
  | (_, st') => (None, st')
  end.
End WithState.

End Walk.

(** ** Path resolution *)

(** [filePathToURL] *)
Definition filePathToURL (rootPath path : string) : string :=
  let sanitized := Strings.RemoveAll path rootPath in
  Strings.RemoveAll sanitized ".mbox".

(** The two maps of [gatherMboxPaths]. *)
Record Gathered := {
  paths : gmap string string;
  mboxPaths : gset string
}.

(** The body of the loop [for p := range mboxPaths] for one [p]. *)
Definition matchMarked (rootPath path name : string) (p : string)
  (paths : gmap string string) : gmap string string :=
  if Strings.HasPrefix path p then
    if bool_decide (Strings.RemoveAll path ("/" +:+ name) = p)
    then <[filePathToURL rootPath p := path +:+ "/" +:+ "Data"]> paths
    else paths
  else paths.

(** The function that [walker] hands to [filepath.WalkDir]. *)
Definition visit (rootPath : string) (path name : string) (d : Node)
  (err : option OSError) (st : Gathered) : option WalkError * Gathered :=
  match err with
  | Some e => (Some (Failed e), st)
  | None =>
      if IsDir d then
        if bool_decide (name = "Data") || bool_decide (name = "MailData")
        then (Some SkipDir, st)
        else
          let paths' :=
            set_fold (matchMarked rootPath path name) (paths st) (mboxPaths st) in
          match statEntry d "Info.plist" with
          | None =>
              (None, {| paths := paths'; mboxPaths := {[path]} ∪ mboxPaths st |})
          | Some _ => (None, {| paths := paths'; mboxPaths := mboxPaths st |})
          end
      else (None, st)
  end.

(** the root of the walk, [homeDir] followed by [/Library/Mail/V10/] *)
Definition mailRoot (homeDir : string) : string :=
  homeDir +:+ "/Library/Mail/V10/".

(** [walker], with the two maps it closes over passed through; [disk]
    is what lies at [rootPath]. *)
Definition walker (rootPath : string) (disk : Node + OSError) (st : Gathered)
  : option OSError * Gathered :=
  Walk.WalkDir (visit rootPath) rootPath disk st.

(** [gatherMboxPaths]; [disk] is what lies at the mail root. *)
Definition gatherMboxPaths (homeDir : string) (disk : Node + OSError)
  : gmap string string * option OSError :=
  let '(err, st) :=
    walker (mailRoot homeDir) disk {| paths := ∅; mboxPaths := ∅ |} in
  (paths st, err).

(** ** Byte slices, [bytes], [strconv] *)

#[global] Instance byte_eq_dec : EqDecision Byte.byte := Byte.byte_eq_dec.

Abbreviation byte := Byte.byte.
Abbreviation LF := Byte.x0a.
Abbreviation CR := Byte.x0d.
Abbreviation SP := Byte.x20.

(** [len(x)] as a Go [int] *)
Definition len {A} (l : list A) : Z := Z.of_nat (length l).

(** the value a 64-bit [int] takes for the result of an operation *)
Definition wrap64 (z : Z) : Z := (z + 2 ^ 63) mod 2 ^ 64 - 2 ^ 63.

Module Bytes.

(** [bytes.IndexByte], [-1] when the byte is absent *)
Fixpoint IndexByte (b : list byte) (c : byte) : Z :=
  match b with
  | [] => -1
  | x :: b' =>
      if bool_decide (x = c) then 0
      else let i := IndexByte b' c in if i <? 0 then -1 else i + 1
  end.

Fixpoint trimLeft (b : list byte) (c : byte) : list byte :=
  match b with
  | x :: b' => if bool_decide (x = c) then trimLeft b' c else b
  | [] => []
  end.

Definition trimRight (b : list byte) (c : byte) : list byte :=
  rev (trimLeft (rev b) c).

(** [bytes.Trim(b, cutset)] for a cutset of the one byte [c] *)
Definition Trim (b : list byte) (c : byte) : list byte :=
  trimRight (trimLeft b c) c.

(** the slice [b[lo:hi]] for indices in range *)
Definition slice (b : list byte) (lo hi : Z) : list byte :=
  take (Z.to_nat (hi - lo)) (drop (Z.to_nat lo) b).

End Bytes.

Module Strconv.

Inductive NumError := ErrSyntax | ErrRange.

Definition digit (c : ascii) : option Z :=
  let n := Z.of_nat (nat_of_ascii c) in
  if (48 <=? n) && (n <=? 57) then Some (n - 48) else None.

(** The loop of [ParseUint(s, 10, 64)]: a byte that is no digit is
    a syntax error, a value above [2^64 - 1] a range error,
    whichever comes first. *)
Fixpoint parseUint (s : string) (n : Z) : Z + NumError :=
  match s with
  | EmptyString => inl n
  | String c s' =>
      match digit c with
      | None => inr ErrSyntax
      | Some d =>
          if 2 ^ 64 - 1 <? 10 * n + d then inr ErrRange
          else parseUint s' (10 * n + d)
      end
  end.

(** [strconv.Atoi] on a 64-bit platform: an optional sign, at least
    one digit, nothing else, and a value that fits an [int]. The
    fast path of the Go function for short inputs computes the same
    result as [ParseInt(s, 10, 0)], which is followed here. *)
Definition Atoi (s : string) : Z + NumError :=
  let '(neg, body) :=
    match s with
    | String c s' =>
        if Ascii.eqb c "+" then (false, s')
        else if Ascii.eqb c "-" then (true, s')
        else (false, s)
    | EmptyString => (false, s)
    end in
  match body with
  | EmptyString => inr ErrSyntax
  | String _ _ =>
      match parseUint body 0 with
      | inr e => inr e
      | inl un =>
          if neg then (if 2 ^ 63 <? un then inr ErrRange else inl (- un))
          else (if 2 ^ 63 <=? un then inr ErrRange else inl un)
      end
  end.

End Strconv.

(** ** Streams: [io.ReadSeeker], [io.LimitReader] *)

(** A seekable stream over a file: its bytes and the read position,
    which is never negative. A read delivers as many bytes as were
    asked for while the file has them. *)
Record ReadSeeker := {
  content : list byte;
  pos : Z
}.

Module IO.

(** [r.Read(p)] with [n = len(p)]: the bytes, whether [io.EOF] was
    returned, the stream afterwards. *)
Definition Read (r : ReadSeeker) (n : Z) : list byte * bool * ReadSeeker :=
  if n <=? 0 then ([], false, r)
  else
    let got := take (Z.to_nat n) (drop (Z.to_nat (pos r)) (content r)) in
    match got with
    | [] => ([], true, r)
    | _ => (got, false, {| content := content r; pos := pos r + len got |})
    end.

(** [r.Seek(offset, io.SeekStart)] *)
Definition SeekStart (r : ReadSeeker) (offset : Z) : ReadSeeker :=
  {| content := content r; pos := offset |}.

(** [io.LimitedReader] *)
Record LimitedReader := {
  R : ReadSeeker;
  N : Z
}.

(** the [Read] method of [LimitedReader] *)
Definition LimitedRead (l : LimitedReader) (n : Z)
  : list byte * bool * LimitedReader :=
  if N l <=? 0 then ([], true, l)
  else
    let n' := if N l <? n then N l else n in
    let '(got, eof, r') := Read (R l) n' in
    (got, eof, {| R := r'; N := N l - len got |}).

(** The values of type [io.Reader] that the package hands out. *)
Inductive Reader :=
| Raw (r : ReadSeeker)
| Limited (l : LimitedReader).

Definition ReaderRead (rd : Reader) (n : Z) : list byte * bool * Reader :=
  match rd with
  | Raw r => let '(got, eof, r') := Read r n in (got, eof, Raw r')
  | Limited l => let '(got, eof, l') := LimitedRead l n in (got, eof, Limited l')
  end.

(** Successive reads into buffers of the given sizes, stopping at
    the first [io.EOF]; the bytes delivered. *)
Fixpoint reads (rd : Reader) (sizes : list Z) : list byte :=
  match sizes with
  | [] => []
  | n :: sizes' =>
      let '(got, eof, rd') := ReaderRead rd n in
      if eof then got else got ++ reads rd' sizes'
  end.

(** the stream a reader reads from *)
Definition underlying (rd : Reader) : ReadSeeker :=
  match rd with
  | Raw r => r
  | Limited l => R l
  end.

(** [io.ReadAll]: reads until [io.EOF]. Every read before it
    delivers at least one byte, so as many reads as the file has
    bytes, and one more, reach it. The buffer offered is never
    empty; 512 bytes stand for its size. *)
Definition ReadAll (rd : Reader) : list byte :=
  reads rd (replicate (S (length (content (underlying rd)))) 512).

End IO.

(** ** [bufio.Scanner] with the default split function *)

Module Bufio.

Definition startBufSize : Z := 4096.
Definition MaxScanTokenSize : Z := 64 * 1024.

Inductive ScanError := EOF | ErrTooLong.

(** A scanner before its first token: [start] is still 0, so [buf]
    stands for [s.buf[s.start:s.end]] and [cap] for [len(s.buf)]. *)
Record Scanner := {
  src : ReadSeeker;
  buf : list byte;
  cap : Z;
  err : option ScanError
}.

Definition NewScanner (r : ReadSeeker) : Scanner :=
  {| src := r; buf := []; cap := 0; err := None |}.

(** [dropCR] *)
Definition dropCR (data : list byte) : list byte :=
  match rev data with
  | c :: rest => if bool_decide (c = CR) then rev rest else data
  | [] => data
  end.

(** [bufio.ScanLines]: how far to advance, and the token if there
    is one *)
Definition ScanLines (data : list byte) (atEOF : bool)
  : Z * option (list byte) :=
  if atEOF && (len data =? 0) then (0, None)
  else
    let i := Bytes.IndexByte data LF in
    if 0 <=? i then (i + 1, Some (dropCR (Bytes.slice data 0 i)))
    else if atEOF then (len data, Some (dropCR data))
    else (0, None).

(** The read at the end of the loop of [Scan]: the free part of
    the buffer is offered to the reader. *)
Definition fill (s : Scanner) : Scanner :=
  let '(got, eof, r') := IO.Read (src s) (cap s - len (buf s)) in
  {| src := r'; buf := buf s ++ got; cap := cap s;
     err := if eof then Some EOF else err s |}.

(** The loop of the first call of [Scan]. [None] stands for fuel
    that ran out; otherwise the token, if [Scan] returned [true],
    and the scanner. *)
Fixpoint scanLoop (fuel : nat) (s : Scanner)
  : option (option (list byte) * Scanner) :=
  match fuel with
  | O => None
  | S fuel' =>
      let token :=
        if (0 <? len (buf s)) || bool_decide (is_Some (err s))
        then (ScanLines (buf s) (bool_decide (is_Some (err s)))).2
        else None in
      match token with
      | Some tok => Some (Some tok, s)
      | None =>
          if bool_decide (is_Some (err s)) then Some (None, s)
          else if len (buf s) =? cap s then
            if MaxScanTokenSize <=? cap s then
              Some (None, {| src := src s; buf := buf s; cap := cap s;
                             err := Some ErrTooLong |})
            else
              let newSize := if cap s * 2 =? 0 then startBufSize else cap s * 2 in
              scanLoop fuel'
                (fill {| src := src s; buf := buf s;
                         cap := Z.min newSize MaxScanTokenSize;
                         err := err s |})
          else scanLoop fuel' (fill s)
      end
  end.

(** The buffer grows from 4096 to 65536 bytes in four doublings, so
    the loop runs at most seven times. *)
Definition scanFuel : nat := 8.

(** [scanner.Scan()] followed by [scanner.Bytes()], on a new
    scanner; the stream is returned as the scanner's reads left
    it. *)
Definition ScanFirst (r : ReadSeeker) : option (list byte) * ReadSeeker :=
  match scanLoop scanFuel (NewScanner r) with
  | Some (tok, s) => (tok, src s)
  | None => (None, r)
  end.

End Bufio.

(** ** Errors the package returns *)

Inductive Error :=
| NumError (e : Strconv.NumError)            (* from [strconv.Atoi] *)
| NoFirstLine                                (* "couldnt find the first line" *)
| UnmatchedMailboxPath (relativePath : string)
| PathError (e : OSError)                    (* from [os.Open] *)
| ScanNull                                   (* [rows.Scan] of a NULL into a string *)
| QueryError.                                (* [db.Query] failed *)

(** ** Stripping the framing of an emlx file *)

(** [stripEmlx]. Both results are returned as Go returns them: the
    reader, which may be [nil], and the error, which may be [nil]. *)
Definition stripEmlx (r : ReadSeeker) : option IO.Reader * option Error :=
  match Bufio.ScanFirst r with
  | (Some original, r1) =>
      let stringByteNum := Bytes.Trim original SP in
      match Strconv.Atoi (String.string_of_list_byte stringByteNum) with
      | inr e => (Some (IO.Raw r1), Some (NumError e))
      | inl byteNum =>
          let r2 := IO.SeekStart r1 (len original + 1) in
          (Some (IO.Limited {| IO.R := r2; IO.N := byteNum |}), None)
      end
  | (None, r1) => (Some (IO.Raw r1), Some NoFirstLine)
  end.

Definition bytes (s : string) : list byte := String.list_byte_of_string s.

(** ** Accounts, mailboxes, messages *)

Record Account := {
  acctName : string;
  acctUUID : string
}.

(** [Mailbox.Account] is a pointer, [nil] in the zero value. *)
Record Mailbox := {
  mboxName : string;
  mboxAccount : option Account
}.

(** [Mailbox.URL] *)
Definition URL (m : Mailbox) : Go string :=
  match mboxAccount m with
  | Some a => Done ("imap://" +:+ acctUUID a +:+ "/" +:+ mboxName m)
  | None => Panicked NilDereference
  end.

(** [Mailbox.IsEmpty] *)
Definition IsEmpty (m : Mailbox) : bool :=
  bool_decide (mboxAccount m = None) || String.eqb (mboxName m) "".

Record MailboxQuery := {
  mqMailbox : Mailbox;
  BatchResults : Z
}.

Definition Inbox : string := "INBOX".

(** [Message] *)
Record Message := {
  pathWithoutExtension : string
}.

(** ** The index store *)

(** A row of [messages] joined to [mailboxes]: the identifier in the
    text form a scan into a Go string gives it, the mailbox url,
    [NULL] when the left join finds no mailbox, and the time of
    receipt. *)
Record Row := {
  ROWID : string;
  url : option string;
  date_received : Z
}.

Module SQL.

(** What [Query] appends to [getMessages] *)
Inductive Clause :=
| WhereUrl          (* WHERE mbx.url = ? *)
| OrderByDateDesc   (* ORDER BY m.date_received DESC *)
| LimitOffset.      (* LIMIT ? OFFSET ? *)

Inductive Value :=
| Text (s : string)
| Int (n : Z).

Definition newer (a b : Row) : Prop := date_received b <= date_received a.

#[global] Instance newer_dec : RelDecision newer.
Proof. intros a b. unfold newer. apply _. Defined.

(** the text of a clause, as [Query] appends it *)
Definition text (c : Clause) : string :=
  String (ascii_of_nat 10)
    match c with
    | WhereUrl => "WHERE mbx.url = ?"
    | OrderByDateDesc => "ORDER BY m.date_received DESC"
    | LimitOffset => "LIMIT ? OFFSET ?"
    end.

(** One clause applied to the rows, with the values bound to its
    placeholders taken from the front of [vars]. A negative limit
    is no limit and a negative offset is none, as in SQLite. *)
Definition clause (c : Clause) (rows : list Row) (vars : list Value)
  : option (list Row * list Value) :=
  match c, vars with
  | WhereUrl, Text u :: vars' =>
      Some (filter (fun r => url r = Some u) rows, vars')
  | OrderByDateDesc, _ => Some (merge_sort newer rows, vars)
  | LimitOffset, Int limit :: Int offset :: vars' =>
      let rest := drop (Z.to_nat offset) rows in
      Some (if limit <? 0 then rest else take (Z.to_nat limit) rest, vars')
  | _, _ => None
  end.

Fixpoint clauses (cs : list Clause) (rows : list Row) (vars : list Value)
  : option (list Row) :=
  match cs with
  | [] => match vars with [] => Some rows | _ => None end
  | c :: cs' =>
      match clause c rows vars with
      | Some (rows', vars') => clauses cs' rows' vars'
      | None => None
      end
  end.

(** [db.Query(query, variables...)] for the statements [Query]
    builds, which append their clauses in the order SQL applies
    them. Placeholders and values that do not match are an error. *)
Definition Query (db : list Row) (query : list Clause) (variables : list Value)
  : option (list Row) :=
  clauses query db variables.

End SQL.

(** ** The query engine *)

(** [Mailboxes] *)
Record Mailboxes := {
  byAccountName : gmap string (gmap string Mailbox);
  url2path : gmap string string;
  db : list Row
}.

(** [Mailboxes.Mailbox]; [None] is the error "couldn't find mailbox" *)
Definition lookupMailbox (m : Mailboxes) (account name : string) : option Mailbox :=
  match byAccountName m !! account with
  | Some boxes => boxes !! name
  | None => None
  end.

(** What [url.Parse] gives of a URL that it accepts. *)
Record ParsedURL := {
  Host : string;
  Path_ : string
}.

Section QueryEngine.

(** [url.Parse] of the standard library; [None] when it returns an
    error, and with it a [nil] URL. *)
Variable url_Parse : string -> option ParsedURL.

(** The function value [Query] returns: what it closes over, and
    its variable [batchCount]. *)
Record QueryFunc := {
  qm : Mailboxes;
  qmq : MailboxQuery;
  query : list SQL.Clause;
  batchCount : Z
}.

(** [getMessages] *)
Definition getMessages : string := "
SELECT
	m.ROWID as id,
	mbx.url as url
FROM
	messages m
LEFT JOIN
	mailboxes mbx
ON
	m.mailbox = mbx.ROWID
".

(** the string [query] of the function value *)
Definition queryText (clauses : list SQL.Clause) : string :=
  foldl (fun q c => q +:+ SQL.text c) getMessages clauses.

(** [Mailboxes.Query] *)
Definition Query (m : Mailboxes) (mq : MailboxQuery) : QueryFunc :=
  let query := [] in
  let query :=
    if negb (IsEmpty (mqMailbox mq)) then query ++ [SQL.WhereUrl] else query in
  let query := query ++ [SQL.OrderByDateDesc] in
  let query :=
    if 0 <? BatchResults mq then query ++ [SQL.LimitOffset] else query in
  {| qm := m; qmq := mq; query := query; batchCount := 0 |}.

(** The placeholders' values, built at each call. *)
Definition variables (f : QueryFunc) : Go (list SQL.Value) :=
  let mq := qmq f in
  variables ←
    (if negb (IsEmpty (mqMailbox mq))
     then u ← URL (mqMailbox mq); mret [SQL.Text u]
     else mret []);
  mret (if 0 <? BatchResults mq
        then variables ++ [SQL.Int (BatchResults mq);
                           SQL.Int (wrap64 (batchCount f * BatchResults mq))]
        else variables).

(** The loop [for rows.Next()] *)
Fixpoint eachRow (url2path : gmap string string) (rows : list Row)
  (msgs : list Message) : Go (list Message * option Error) :=
  match rows with
  | [] => mret (msgs, None)
  | row :: rows' =>
      match url row with
      | None => mret ([], Some ScanNull)
      | Some u =>
          match url_Parse u with
          | None => Panicked NilDereference
          | Some MailboxURL =>
              let relativePath := Host MailboxURL +:+ Path_ MailboxURL in
              match url2path !! relativePath with
              | None => mret ([], Some (UnmatchedMailboxPath relativePath))
              | Some basePath =>
                  rel ← emlPathFromROWID (ROWID row);
                  eachRow url2path rows'
                    (msgs ++ [{| pathWithoutExtension := Path.Join [basePath; rel] |}])
              end
          end
      end
  end.

(** The rows the index store returns to a call, when it answers. *)
Definition fetch (f : QueryFunc) : Go (option (list Row)) :=
  vars ← variables f;
  mret (SQL.Query (db (qm f)) (query f) vars).

(** A call of the function value: what it returns, and the
    function value afterwards. The body does not assign to
    [batchCount]. *)
Definition call (f : QueryFunc) : Go (list Message * option Error) * QueryFunc :=
  (rows ← fetch f;
   match rows with
   | None => mret ([], Some QueryError)
   | Some rows => eachRow (url2path (qm f)) rows []
   end,
   f).

End QueryEngine.

(** A reading of URLs of the shape [imap://host/path] without
    escapes, on which it agrees with [url.Parse]; it serves to run
    the query engine on examples. *)
Fixpoint splitHost (s : string) : string * string :=
  match s with
  | EmptyString => (EmptyString, EmptyString)
  | String c s' =>
      if Ascii.eqb c "/" then (EmptyString, s)
      else let '(h, p) := splitHost s' in (String c h, p)
  end.

Definition parseImap (u : string) : option ParsedURL :=
  if Strings.HasPrefix u "imap://"
  then let '(h, p) := splitHost (String.substring 7 (String.length u - 7) u) in
       Some {| Host := h; Path_ := p |}
  else None.

(** ** Opening a message *)

(** The message files of the disk: what [os.Open] finds at a path,
    the bytes of a file or an error; a path that is not in the map
    does not exist. *)
Definition osOpen (files : gmap string (list byte + OSError)) (name : string)
  : ReadSeeker + OSError :=
  match files !! name with
  | Some (inl data) => inl {| content := data; pos := 0 |}
  | Some (inr e) => inr e
  | None => inr ENOENT
  end.

(** [Message.Open], with the paths it handed to [os.Open], in order. *)
Definition Open (files : gmap string (list byte + OSError)) (m : Message)
  : list string * (option IO.Reader * option Error) :=
  let name1 := Path.Join [pathWithoutExtension m +:+ ".emlx"] in
  match osOpen files name1 with
  | inl f1 => ([name1], stripEmlx f1)
  | inr err =>
      if negb (IsNotExist err) then ([name1], (None, Some (PathError err)))
      else
        let name2 := Path.Join [pathWithoutExtension m +:+ ".partial.emlx"] in
        match osOpen files name2 with
        | inl f2 => ([name1; name2], stripEmlx f2)
        | inr err => ([name1; name2], (None, Some (PathError err)))
        end
  end.

(** ** Errors as values *)

(** the text of a [syscall.Errno] *)
Definition errnoText (e : OSError) : string :=
  match e with
  | ENOENT => "no such file or directory"
  | EACCES => "permission denied"
  | EPERM => "operation not permitted"
  | EIO => "input/output error"
  end.

(** The values of type [error] that reach [NewMailboxes]. *)
Inductive GoError :=
| Errno (e : OSError)                            (* [syscall.Errno] *)
| FsPathError (op path : string) (err : GoError) (* [*fs.PathError] *)
| ErrorString (msg : string)                     (* another error, by its message *)
| WrapError (msg : string) (err : GoError).      (* [fmt.Errorf] with the verb [%w] *)

(** [err.Error()] *)
Fixpoint ErrorText (err : GoError) : string :=
  match err with
  | Errno e => errnoText e
  | FsPathError op path err' => op +:+ " " +:+ path +:+ ": " +:+ ErrorText err'
  | ErrorString msg => msg
  | WrapError msg _ => msg
  end.

(** the format of [wrapMaybePermissionsError] before its verb *)
Definition fullDiskAccess : string :=
"Querying Mail.app messages requires full-disk access permissions.
You can grant these permissions in System Preferences > Privacy & Security.

Original error:
".

(** [wrapMaybePermissionsError] *)
Definition wrapMaybePermissionsError (err : GoError) : GoError :=
  if Strings.HasSuffix (ErrorText err) "operation not permitted"
  then WrapError (fullDiskAccess +:+ ErrorText err) err
  else err.

(** ** The mailboxes of the accounts *)

(** [record[i]] *)
Definition field (record : list string) (i : nat) : Go string :=
  match record !! i with
  | Some s => Done s
  | None => Panicked (IndexOutOfRange i (length record))
  end.

(** The loop of [getMailboxes] over the records. The map [accts] is
    looked up and never assigned to. *)
Fixpoint eachRecord (accts : gmap string Account) (records : list (list string))
  (mailboxes : list Mailbox) : Go (list Mailbox) :=
  match records with
  | [] => mret mailboxes
  | record :: records' =>
      accountUUID ← field record 0;
      accountName ← field record 1;
      mailboxName ← field record 2;
      let account :=
        match accts !! accountUUID with
        | Some acct => acct
        | None => {| acctName := accountName; acctUUID := accountUUID |}
        end in
      eachRecord accts records'
        (mailboxes ++ [{| mboxName := mailboxName; mboxAccount := Some account |}])
  end.

(** [getMailboxes]; [script] is what running the script and reading
    its output as CSV give: the records, or the error of either. The
    reader is used as [csv.NewReader] makes it, so every record it
    returns has as many fields as the first one; a record of another
    length is an error of the reading. *)
Definition getMailboxes (script : list (list string) + GoError)
  : Go (list Mailbox * option GoError) :=
  match script with
  | inr err => mret ([], Some err)
  | inl records =>
      mailboxes ← eachRecord ∅ records [];
      mret (mailboxes, None)
  end.

(** The body of the loop of [NewMailboxes] over the mailboxes: the
    inner map is made when the account has none yet, and the mailbox
    is stored under its name. *)
Definition addMailbox (byAccountName : gmap string (gmap string Mailbox))
  (mbox : Mailbox) : Go (gmap string (gmap string Mailbox)) :=
  match mboxAccount mbox with
  | None => Panicked NilDereference
  | Some account =>
      let byAccountName :=
        if bool_decide (byAccountName !! acctName account = None)
        then <[acctName account := ∅]> byAccountName
        else byAccountName in
      mret (<[acctName account :=
                <[mboxName mbox := mbox]> (default ∅ (byAccountName !! acctName account))]>
              byAccountName)
  end.

Fixpoint eachMailbox (byAccountName : gmap string (gmap string Mailbox))
  (mboxes : list Mailbox) : Go (gmap string (gmap string Mailbox)) :=
  match mboxes with
  | [] => mret byAccountName
  | mbox :: mboxes' =>
      byAccountName' ← addMailbox byAccountName mbox;
      eachMailbox byAccountName' mboxes'
  end.

(** [NewMailboxes]. [script] is the outcome of the script, [disk]
    what lies at the mail root and [index] the rows of the index
    store; [op] and [path] are the operation and the path that the
    error of a failed walk names. Opening the store with a
    registered driver does not fail. The fields that are not yet
    assigned when an error is returned hold their zero values. *)
Definition NewMailboxes (script : list (list string) + GoError)
  (homeDir : string) (disk : Node + OSError) (op path : string) (index : list Row)
  : Go (Mailboxes * option GoError) :=
  r ← getMailboxes script;
  match r with
  | (_, Some err) => mret ({| byAccountName := ∅; url2path := ∅; db := [] |}, Some err)
  | (mboxes, None) =>
      byAccountName ← eachMailbox ∅ mboxes;
      match gatherMboxPaths homeDir disk with
      | (_, Some e) =>
          mret ({| byAccountName := byAccountName; url2path := ∅; db := [] |},
                Some (wrapMaybePermissionsError (FsPathError op path (Errno e))))
      | (paths, None) =>
          mret ({| byAccountName := byAccountName; url2path := paths; db := index |}, None)
      end
  end.

(** ** The example program [example/main.go] *)

(** What [checkErr] and the runtime panic with. *)
Inductive Panic :=
| Runtime (p : PanicKind)
| OfSetup (err : GoError)                 (* from [NewMailboxes] *)
| OfLookup (account name : string)        (* "couldn't find mailbox" *)
| OfQuery (err : Error)                   (* from the query function *)
| OfOpen (err : Error).                   (* from [Open] *)

(** How [main] goes on: it panics, or it hands a reader to
    [mail.ReadMessage]. *)
Inductive Exit :=
| Panics (p : Panic)
| ReadMessage (r : IO.Reader).

Section Main.
Variable url_Parse : string -> option ParsedURL.

(** [messages[0].Open()] and what follows it *)
Definition openFirst (files : gmap string (list byte + OSError))
  (messages : list Message) : Exit :=
  match messages with
  | [] => Panics (Runtime (IndexOutOfRange 0 0))
  | message :: _ =>
      match (Open files message).2 with
      | (_, Some err) => Panics (OfOpen err)
      | (Some r, None) => ReadMessage r
      | (None, None) => Panics (Runtime NilDereference)
      end
  end.

(** [main] of the example, up to the call of [mail.ReadMessage];
    [ACCOUNT_NAME] is the value of the environment variable, and the
    other arguments are what [NewMailboxes] and [Open] find. *)
Definition main (ACCOUNT_NAME : string) (script : list (list string) + GoError)
  (homeDir : string) (disk : Node + OSError) (op path : string) (index : list Row)
  (files : gmap string (list byte + OSError)) : Exit :=
  match NewMailboxes script homeDir disk op path index with
  | Panicked p => Panics (Runtime p)
  | Done (_, Some err) => Panics (OfSetup err)
  | Done (mboxes, None) =>
      let found :=
        if negb (String.eqb ACCOUNT_NAME "")
        then match lookupMailbox mboxes ACCOUNT_NAME Inbox with
             | Some mbox => inl mbox
             | None => inr (OfLookup ACCOUNT_NAME Inbox)
             end
        else inl {| mboxName := ""; mboxAccount := None |} in
      match found with
      | inr p => Panics p
      | inl mbox =>
          let query := Query mboxes {| mqMailbox := mbox; BatchResults := 10 |} in
          match (call url_Parse query).1 with
          | Panicked p => Panics (Runtime p)
          | Done (_, Some err) => Panics (OfQuery err)
          | Done (messages, None) => openFirst files messages
          end
      end
  end.
End Main.

(** ** Example data *)

Module Examples.

Definition home : string := "/Users/u".

(** an account directory with the marker file and one folder
    [INBOX.mbox] beside it *)
Definition oneMailbox : Node :=
  Dir [("ACC", Dir [("INBOX.mbox", Dir [("Data", Dir [("1", File)])]);
                    ("Info.plist", File)])].

(** a marked directory [a] with a child of its own name and a
    grandchild [b/b] *)
Definition repeatedNames : Node :=
  Dir [("a", Dir [("Info.plist", File);
                  ("a", Dir []);
                  ("b", Dir [("b", Dir [])])])].

Definition emlx120 : list byte :=
  bytes "120" ++ [LF] ++ replicate 120 Byte.x41 ++ replicate 40 Byte.x42.

Definition acct : Account := {| acctName := "me"; acctUUID := "ACC" |}.
Definition inbox : Mailbox := {| mboxName := "INBOX"; mboxAccount := Some acct |}.

Definition message (id : string) (received : Z) : Row :=
  {| ROWID := id; url := Some "imap://ACC/INBOX"; date_received := received |}.

(** five messages, not stored in the order of their receipt *)
Definition fiveRows : list Row :=
  [message "101" 10; message "102" 50; message "103" 30;
   message "104" 20; message "105" 40].

Definition store (rows : list Row) : Mailboxes :=
  {| byAccountName := {[ "me" := {[ "INBOX" := inbox ]} ]};
     url2path := {[ "ACC/INBOX" := "/m/ACC/INBOX.mbox/D/Data" ]};
     db := rows |}.

Definition inBatchesOf3 : QueryFunc :=
  Query (store fiveRows) {| mqMailbox := inbox; BatchResults := 3 |}.

(** a message of a mailbox that is not on disk, older than one of
    the inbox and newer than another *)
Definition mixedRows : list Row :=
  [message "101" 10;
   {| ROWID := "102"; url := Some "imap://ACC/Sent"; date_received := 20 |};
   message "103" 30].

Definition everything : QueryFunc :=
  Query (store mixedRows)
    {| mqMailbox := {| mboxName := ""; mboxAccount := None |}; BatchResults := 0 |}.

Definition at_ (id : string) : Message :=
  {| pathWithoutExtension :=
       "/m/ACC/INBOX.mbox/D/Data/" +:+ String.substring 2 1 id +:+ "/"
       +:+ String.substring 1 1 id +:+ "/" +:+ String.substring 0 1 id
       +:+ "/Messages/" +:+ id |}.

End Examples.

(** ** Vocabulary of the properties *)

(** a byte below 0x80; every byte of a numeric identifier is one *)
Definition isASCII (c : ascii) : bool := (nat_of_ascii c <? 128)%nat.

(** the bytes asked for by a sequence of reads, a negative size
    counting as none *)
Definition total (sizes : list Z) : nat :=
  foldr (fun n t => (Z.to_nat n + t)%nat) 0%nat sizes.

(** a string without a slash *)
Fixpoint noSlash (s : string) : bool :=
  match s with
  | EmptyString => true
  | String c s' => negb (Ascii.eqb c "/") && noSlash s'
  end.

(** a name that can be an element of a path: not empty, not [.] or
    [..], without a slash *)
Definition isName (s : string) : bool :=
  negb (String.eqb s "") && negb (String.eqb s ".") && negb (String.eqb s "..")
  && noSlash s.

(** the path [/n1/n2/...] of the given elements *)
Fixpoint absolute (names : list string) : string :=
  match names with
  | [] => ""
  | name :: names' => "/" +:+ name +:+ absolute names'
  end.

(** an element that [Clean] keeps *)
Definition kept (s : string) : bool := negb (String.eqb s "").

(** The mail library of the resolver's scenario: under the root a
    directory [X] that holds the folder [N] with its [Data]
    directory, among files [pre] and [post]. *)
Definition mailboxTree (X N : string) (pre post : list (string * Node)) (inner : Node) : Node :=
  Dir [(X, Dir (pre ++ (N, Dir [("Data", inner)]) :: post))].

(** the function value after a number of calls *)
Definition afterCalls (url_Parse : string -> option ParsedURL) (n : nat)
  (f : QueryFunc) : QueryFunc :=
  Nat.iter n (fun f => (call url_Parse f).2) f.

(** the authority and path of the url stored with a row, read as in
    the loop of the query function *)
Definition relativePath (url_Parse : string -> option ParsedURL) (row : Row)
  : option string :=
  u ← url row; parsed ← url_Parse u; Some (Host parsed +:+ Path_ parsed).

(** the handle a row converts to *)
Definition messageOf (url_Parse : string -> option ParsedURL)
  (url2path : gmap string string) (row : Row) : option Message :=
  rel ← relativePath url_Parse row;
  basePath ← url2path !! rel;
  match emlPathFromROWID (ROWID row) with
  | Done shard => Some {| pathWithoutExtension := Path.Join [basePath; shard] |}
  | Panicked _ => None
  end.

(** a row as the index store hands it out: a mailbox url that parses
    and an identifier of at least three bytes *)
Definition wellFormed (url_Parse : string -> option ParsedURL) (row : Row) : Prop :=
  is_Some (relativePath url_Parse row) /\ (3 <= String.length (ROWID row))%nat.

(** a row whose mailbox the path map does not know *)
Definition unresolved (url_Parse : string -> option ParsedURL)
  (url2path : gmap string string) (row : Row) : Prop :=
  exists rel, relativePath url_Parse row = Some rel /\ url2path !! rel = None.

(** The scanner while it looks for the end of a first line [line] of
    the file [data]: it holds a prefix of the file, the stream stands
    behind that prefix, and the buffer is full unless the line
    terminator is already in it. *)
Definition filling (line data : list byte) (s : Bufio.Scanner) : Prop :=
  Bufio.err s = None /\
  Bufio.src s = {| content := data; pos := len (Bufio.buf s) |} /\
  Bufio.buf s = take (length (Bufio.buf s)) data /\
  (len line < len (Bufio.buf s) \/ len (Bufio.buf s) = Bufio.cap s) /\
  (Bufio.cap s = 0 \/ Bufio.startBufSize <= Bufio.cap s).

(** the scanner with a full buffer over the file [data] *)
Definition brimful (data : list byte) (s : Bufio.Scanner) : Prop :=
  Bufio.err s = None /\
  Bufio.src s = {| content := data; pos := Bufio.cap s |} /\
  Bufio.buf s = take (Z.to_nat (Bufio.cap s)) data /\
  (Bufio.cap s = 0 \/ Bufio.startBufSize <= Bufio.cap s) /\
  Bufio.cap s <= Bufio.MaxScanTokenSize.

(** How many more rounds of the loop of [Scan] a scanner may need:
    one once an error is recorded, two when the stream is exhausted,
    and one more for each doubling of the buffer before that. *)
Definition rounds (s : Bufio.Scanner) (f : nat) : Prop :=
  match Bufio.err s with
  | Some _ => (1 <= f)%nat
  | None =>
      0 <= pos (Bufio.src s) /\ (2 <= f)%nat /\
      ((len (Bufio.buf s) = Bufio.cap s /\
        (Bufio.cap s = 0 \/ Bufio.startBufSize <= Bufio.cap s) /\
        Bufio.MaxScanTokenSize
          <= Z.max (Bufio.cap s) 2048 * 2 ^ (Z.of_nat f - 2))
       \/ (len (Bufio.buf s) < Bufio.cap s /\
           drop (Z.to_nat (pos (Bufio.src s))) (content (Bufio.src s)) = []))
  end.

(** a decimal numeral without a sign, as the text of a row
    identifier is *)
Fixpoint numeral (s : string) : bool :=
  match s with
  | EmptyString => true
  | String c s' =>
      match Strconv.digit c with
      | Some _ => numeral s'
      | None => false
      end
  end.

(** a row that the loop of the query function converts to a handle *)
Definition converts (url_Parse : string -> option ParsedURL)
  (url2path : gmap string string) (row : Row) : Prop :=
  is_Some (messageOf url_Parse url2path row).

(** a tree in which every directory can be listed *)
Fixpoint readable (d : Node) : bool :=
  match d with
  | File => true
  | Unreadable _ => false
  | Dir entries => forallb (fun e => readable e.2) entries
  end.

(** a tree in which no directory holds the marker file *)
Fixpoint unmarked (d : Node) : bool :=
  match d with
  | Dir entries =>
      negb (bool_decide ("Info.plist" ∈ entries.*1))
      && forallb (fun e => unmarked e.2) entries
  | File | Unreadable _ => true
  end.

(** a name at which the walk does not descend *)
Definition reserved (name : string) : bool :=
  bool_decide (name = "Data") || bool_decide (name = "MailData").

(** The tree without what lies in its directories [Data] and
    [MailData], which are left empty. *)
Fixpoint hollow (d : Node) : Node :=
  match d with
  | Dir entries =>
      Dir (map (fun e => (e.1, if reserved e.1 && IsDir e.2 then Dir [] else hollow e.2))
             entries)
  | File | Unreadable _ => d
  end.

(** a string without a dot *)
Fixpoint noDot (s : string) : bool :=
  match s with
  | EmptyString => true
  | String c s' => negb (Ascii.eqb c ".") && noDot s'
  end.

(** the mailbox that the loop of [getMailboxes] makes of a record of
    three fields *)
Definition mailboxOf (record : list string) : Mailbox :=
  {| mboxName := default "" (record !! 2%nat);
     mboxAccount := Some {| acctName := default "" (record !! 1%nat);
                            acctUUID := default "" (record !! 0%nat) |} |}.

(** a mailbox of the given name in an account of the given name *)
Definition named (account name : string) (mbox : Mailbox) : Prop :=
  acctName <$> mboxAccount mbox = Some account /\ mboxName mbox = name.

#[global] Instance named_dec account name mbox : Decision (named account name mbox).
Proof. unfold named. apply _. Defined.

(** the index [byAccountName[account][name]] *)
Definition lookup2 (byAccountName : gmap string (gmap string Mailbox))
  (account name : string) : option Mailbox :=
  match byAccountName !! account with
  | Some boxes => boxes !! name
  | None => None
  end.

(** the mailbox [main] asks for *)
Definition chosen (mboxes : Mailboxes) (ACCOUNT_NAME : string) : option Mailbox :=
  if String.eqb ACCOUNT_NAME "" then Some {| mboxName := ""; mboxAccount := None |}
  else lookupMailbox mboxes ACCOUNT_NAME Inbox.

(** how often a byte occurs in a string *)
Fixpoint occurrences (c : ascii) (s : string) : nat :=
  match s with
  | EmptyString => 0
  | String c' s' => ((if Ascii.eqb c' c then 1 else 0) + occurrences c s')%nat
  end.

(** *** Further example data *)

(** the inbox in batches of three, and every message at once *)
Definition inboxOf3 : MailboxQuery := {| mqMailbox := Examples.inbox; BatchResults := 3 |}.
Definition allOf : MailboxQuery :=
  {| mqMailbox := {| mboxName := ""; mboxAccount := None |}; BatchResults := 0 |}.

(** a row with an identifier of one byte, one without a mailbox, one
    whose url has no scheme *)
Definition shortRow : Row := Examples.message "7" 20.
Definition orphanRow : Row := {| ROWID := "102"; url := None; date_received := 20 |}.
Definition oddRow : Row := {| ROWID := "102"; url := Some ":"; date_received := 20 |}.

(** a message of a mailbox that is not on disk *)
Definition sentRow : Row :=
  {| ROWID := "102"; url := Some "imap://ACC/Sent"; date_received := 20 |}.

(** the store of that message and a newer one of the inbox, the
    seventh message of the index *)
Definition seventhAndSent : QueryFunc :=
  Query (Examples.store [sentRow; Examples.message "7" 30]) allOf.

(** the store of that message and a newer one without a mailbox *)
Definition orphanAndSent : QueryFunc :=
  Query (Examples.store
           [sentRow; {| ROWID := "103"; url := None; date_received := 30 |}]) allOf.

(** an account directory with the marker file and two folders *)
Definition twoFolders : Node :=
  Dir [("ACC", Dir [("INBOX.mbox", Dir [("Data", Dir [])]);
                    ("Info.plist", File);
                    ("Sent.mbox", Dir [("Data", Dir [])])])].

(** the row between an older and a newer message of the inbox *)
Definition around (row : Row) : list Row :=
  [Examples.message "101" 10; row; Examples.message "103" 30].

(** the output of the script for two accounts of the same name *)
Definition threeRecords : list (list string) :=
  [["ACC"; "me"; "INBOX"]; ["ACC"; "me"; "Sent"]; ["ACC2"; "me"; "INBOX"]].

(** a message file of two bytes *)
Definition newest : list byte := bytes "2" ++ LF :: bytes "hi".

(** * Properties *)

(** ** Checks of the library models against their documentation *)

Example Clean_double_slash : Path.Clean "a//c" = "a/c".
Proof. reflexivity. Qed.
Example Clean_dotdot : Path.Clean "a/c/b/.." = "a/c".
Proof. reflexivity. Qed.
Example Clean_rooted : Path.Clean "/../a/b/../././/c" = "/a/c".
Proof. reflexivity. Qed.
Example Clean_keeps_leading_dotdot : Path.Clean "../../x/.." = "../..".
Proof. reflexivity. Qed.
Example Clean_root : Path.Clean "/" = "/".
Proof. reflexivity. Qed.
Example Clean_to_dot : Path.Clean "a/.." = ".".
Proof. reflexivity. Qed.
Example Join_trailing_slash : Path.Join ["a/"; "b"] = "a/b".
Proof. reflexivity. Qed.
Example Join_skips_empty : Path.Join ["a"; ""; "../b/"] = "b".
Proof. reflexivity. Qed.
Example Atoi_plain : Strconv.Atoi "120" = inl 120.
Proof. reflexivity. Qed.
Example Atoi_signed : Strconv.Atoi "-7" = inl (-7).
Proof. reflexivity. Qed.
Example Atoi_padded : Strconv.Atoi " 120" = inr Strconv.ErrSyntax.
Proof. reflexivity. Qed.
Example Atoi_too_big :
  Strconv.Atoi "9223372036854775808" = inr Strconv.ErrRange.
Proof. reflexivity. Qed.
Example RemoveAll_every_match : Strings.RemoveAll "a.mbox/b.mbox" ".mbox" = "a/b".
Proof. reflexivity. Qed.
Example string_of_byte_latin1 :
  Strings.string_of_byte (ascii_of_nat 233) = String (ascii_of_nat 195) (String (ascii_of_nat 169) "").
Proof. reflexivity. Qed.

(** ** The shard path *)

Lemma string_of_byte_ascii (c : ascii) :
  isASCII c = true -> Strings.string_of_byte c = String c "".
Proof. unfold isASCII, Strings.string_of_byte. now intros ->. Qed.

Lemma index_get (s : string) (i : nat) (c : ascii) :
  String.get i s = Some c -> Strings.index s i = Done c.
Proof. unfold Strings.index. now intros ->. Qed.

(** C5: for an identifier of at least three bytes (the byte at index
    2 exists), numeric-looking in that its first three bytes are
    ASCII, the path is the byte at index 2, then the one at index 1,
    then the one at index 0, each a directory level, followed by
    [Messages] and the identifier itself; no number is read from the
    identifier. *)
Theorem emlPathFromROWID_shards (ROWID : string) (c0 c1 c2 : ascii) :
  String.get 0 ROWID = Some c0 ->
  String.get 1 ROWID = Some c1 ->
  String.get 2 ROWID = Some c2 ->
  isASCII c0 = true -> isASCII c1 = true -> isASCII c2 = true ->
  emlPathFromROWID ROWID
  = Done (String c2 ("/" +:+ String c1 ("/" +:+ String c0 ("/Messages/" +:+ ROWID)))).
Proof.
  intros H0 H1 H2 A0 A1 A2. unfold emlPathFromROWID.
  rewrite (index_get _ _ _ H2), (index_get _ _ _ H1), (index_get _ _ _ H0).
  simpl. rewrite !string_of_byte_ascii by assumption. reflexivity.
Qed.

Lemma emlPathFromROWID_0447630 :
  emlPathFromROWID "0447630" = Done "4/4/0/Messages/0447630".
Proof.
  apply (emlPathFromROWID_shards "0447630" "0" "4" "4"); reflexivity.
Defined.

(** The identifier is not read as a number: a leading zero changes
    the path. *)
Example emlPathFromROWID_leading_zero :
  emlPathFromROWID "0447630" <> emlPathFromROWID "447630".
Proof. discriminate. Qed.

Lemma get_None_length (s : string) (i : nat) :
  String.get i s = None <-> (String.length s <= i)%nat.
Proof.
  revert i. induction s as [|c s IH]; intros [|i]; simpl;
    try (split; [intros; lia | reflexivity]).
  - split; [discriminate | lia].
  - rewrite IH. lia.
Qed.

Lemma emlPathFromROWID_short (ROWID : string) :
  (String.length ROWID < 3)%nat ->
  emlPathFromROWID ROWID = Panicked (IndexOutOfRange 2 (String.length ROWID)).
Proof.
  intros Hlt. unfold emlPathFromROWID, Strings.index.
  assert (String.get 2 ROWID = None) as -> by (apply get_None_length; lia).
  reflexivity.
Qed.

Lemma emlPathFromROWID_long (ROWID : string) :
  (3 <= String.length ROWID)%nat -> exists p, emlPathFromROWID ROWID = Done p.
Proof.
  intros Hge. unfold emlPathFromROWID, Strings.index.
  destruct (String.get 2 ROWID) as [c2|] eqn:E2;
    [|apply get_None_length in E2; lia].
  destruct (String.get 1 ROWID) as [c1|] eqn:E1;
    [|apply get_None_length in E1; lia].
  destruct (String.get 0 ROWID) as [c0|] eqn:E0;
    [|apply get_None_length in E0; lia].
  simpl. eauto.
Qed.

(** C10: the identifier is indexed at 2, 1 and 0 with no check of
    its length: with fewer than three bytes the call panics, on the
    index 2, and with three or more it returns. *)
Theorem emlPathFromROWID_defined_from_3 (ROWID : string) :
  if (String.length ROWID <? 3)%nat
  then emlPathFromROWID ROWID = Panicked (IndexOutOfRange 2 (String.length ROWID))
  else exists p, emlPathFromROWID ROWID = Done p.
Proof.
  destruct (Nat.ltb_spec (String.length ROWID) 3) as [Hlt|Hge].
  - now apply emlPathFromROWID_short.
  - now apply emlPathFromROWID_long.
Qed.

(** ** Opening a message *)

(** C9: [Open] first opens the path with [.emlx]. It opens the path
    with [.partial.emlx] as well exactly when the first open failed
    because the file does not exist; any other error of the first
    open is returned at once, with no reader. *)
Theorem Open_falls_back_on_missing_only
  (files : gmap string (list byte + OSError)) (m : Message) :
  let name1 := Path.Join [pathWithoutExtension m +:+ ".emlx"] in
  let name2 := Path.Join [pathWithoutExtension m +:+ ".partial.emlx"] in
  exists more, (Open files m).1 = name1 :: more /\
    match osOpen files name1 with
    | inl f1 => more = [] /\ (Open files m).2 = stripEmlx f1
    | inr e =>
        if bool_decide (e = ENOENT)
        then more = [name2] /\
             (Open files m).2 =
               match osOpen files name2 with
               | inl f2 => stripEmlx f2
               | inr e2 => (None, Some (PathError e2))
               end
        else more = [] /\ (Open files m).2 = (None, Some (PathError e))
    end.
Proof.
  intros name1 name2. unfold Open. fold name1 name2.
  destruct (osOpen files name1) as [f1|e].
  - exists []. auto.
  - unfold IsNotExist. destruct (bool_decide (e = ENOENT)); simpl.
    + exists [name2]. destruct (osOpen files name2); auto.
    + exists []. auto.
Qed.

(** A file that cannot be read for lack of permission stops the
    lookup although the partial download is there. *)
Example Open_permission_is_fatal :
  Open {[ "/m/1.emlx" := inr EACCES; "/m/1.partial.emlx" := inl (bytes "1") ]}
       {| pathWithoutExtension := "/m/1" |}
  = (["/m/1.emlx"], (None, Some (PathError EACCES))).
Proof. vm_compute. reflexivity. Qed.

(** ** Pagination *)

Example queryText_inBatchesOf3 :
  queryText (query Examples.inBatchesOf3)
  = getMessages +:+ SQL.text SQL.WhereUrl +:+ SQL.text SQL.OrderByDateDesc
    +:+ SQL.text SQL.LimitOffset.
Proof. vm_compute. reflexivity. Qed.

Lemma call_keeps_closure (url_Parse : string -> option ParsedURL) (f : QueryFunc) :
  (call url_Parse f).2 = f.
Proof. reflexivity. Qed.

Lemma Query_offset_is_zero (m : Mailboxes) (mq : MailboxQuery) :
  wrap64 (batchCount (Query m mq) * BatchResults mq) = 0.
Proof. reflexivity. Qed.

(** C1, on five rows in batches of three: the first call returns the
    three newest messages and the second call returns the same three
    again, not the two that remain, because [batchCount] is never
    advanced. *)
Theorem Query_second_call_repeats_first_page :
  let page := [Examples.at_ "102"; Examples.at_ "105"; Examples.at_ "103"] in
  let f1 := (call parseImap Examples.inBatchesOf3).2 in
  (call parseImap Examples.inBatchesOf3).1 = Done (page, None) /\
  (call parseImap f1).1 = Done (page, None) /\
  (call parseImap f1).1 <> Done ([Examples.at_ "104"; Examples.at_ "101"], None).
Proof. vm_compute. split; [reflexivity|]. split; [reflexivity | discriminate]. Qed.

(** ** The directory walk on examples *)

(** X16: the loop over the marked directories, a Go map whose order
    of iteration is not fixed, may take them in any order: two of
    them that pass the test for a visited directory are the same
    one, so the steps of the loop commute. *)
Lemma matchMarked_commute (rootPath path name p q : string) (m : gmap string string) :
  matchMarked rootPath path name p (matchMarked rootPath path name q m)
  = matchMarked rootPath path name q (matchMarked rootPath path name p m).
Proof.
  unfold matchMarked.
  destruct (Strings.HasPrefix path p), (Strings.HasPrefix path q); try reflexivity.
  repeat case_bool_decide; try reflexivity. congruence.
Qed.


(** C4, on a marked directory [a] that has a child named [a] and a
    grandchild [b/b]: the test removes every occurrence of the last
    element's name from the path, so the direct child [a/a] records
    nothing, the grandchild [a/b/b] records an entry, and that entry
    replaces the one of the direct child [a/b]. *)
Theorem matchMarked_is_not_direct_child :
  let root := mailRoot Examples.home in
  let marked := "/Users/u/Library/Mail/V10/a" in
  matchMarked root "/Users/u/Library/Mail/V10/a/a" "a" marked ∅ = ∅ /\
  matchMarked root "/Users/u/Library/Mail/V10/a/b/b" "b" marked ∅
    = {[ "a" := "/Users/u/Library/Mail/V10/a/b/b/Data" ]} /\
  gatherMboxPaths Examples.home (inl Examples.repeatedNames)
    = ({[ "a" := "/Users/u/Library/Mail/V10/a/b/b/Data" ]}, None).
Proof. vm_compute. split; [reflexivity|]. split; reflexivity. Qed.

(** The walk stops at the first error and returns what it has
    gathered by then: a mail root that cannot be read, and a folder
    that cannot be listed after a mailbox was recorded. *)
Example gatherMboxPaths_no_permission :
  gatherMboxPaths Examples.home (inr EPERM) = (∅, Some EPERM).
Proof. vm_compute. reflexivity. Qed.

Example gatherMboxPaths_unreadable_folder :
  gatherMboxPaths Examples.home
    (inl (Dir [("ACC", Dir [("Info.plist", File); ("In.mbox", Dir []);
                            ("Sent.mbox", Unreadable EACCES)])]))
  = ({[ "ACC" := "/Users/u/Library/Mail/V10/ACC/Sent.mbox/Data" ]}, Some EACCES).
Proof. vm_compute. reflexivity. Qed.

(** Every directory of a marked directory that passes the test
    replaces the entry of the one before it: with two folders beside
    the marker file the second one is recorded. *)
Example gatherMboxPaths_last_folder_wins :
  gatherMboxPaths Examples.home (inl twoFolders)
  = ({[ "ACC" := "/Users/u/Library/Mail/V10/ACC/Sent.mbox/Data" ]}, None).
Proof. vm_compute. reflexivity. Qed.

(** ** The first line of a stream *)

Import Bufio.

Lemma len_app {A} (a b : list A) : len (a ++ b) = len a + len b.
Proof. unfold len. rewrite length_app. lia. Qed.

Lemma len_nonneg {A} (a : list A) : 0 <= len a.
Proof. unfold len. lia. Qed.

Lemma IndexByte_absent (b : list byte) (c : byte) :
  c ∉ b -> Bytes.IndexByte b c = -1.
Proof.
  induction b as [|x b IH]; simpl; [reflexivity|].
  intros Hnot. apply not_elem_of_cons in Hnot as [Hne Hnot].
  rewrite bool_decide_eq_false_2 by congruence.
  rewrite IH by assumption. reflexivity.
Qed.

Lemma IndexByte_first (b rest : list byte) (c : byte) :
  c ∉ b -> Bytes.IndexByte (b ++ c :: rest) c = len b.
Proof.
  induction b as [|x b IH]; simpl; intros Hnot.
  - rewrite bool_decide_eq_true_2 by reflexivity. reflexivity.
  - apply not_elem_of_cons in Hnot as [Hne Hnot].
    rewrite bool_decide_eq_false_2 by congruence.
    rewrite IH by assumption.
    pose proof (len_nonneg b).
    destruct (Z.ltb_spec (len b) 0); [lia|]. unfold len. simpl length. lia.
Qed.

Lemma Read_some (data : list byte) (k : nat) (n : Z) :
  0 < n -> (k < length data)%nat ->
  IO.Read {| content := data; pos := Z.of_nat k |} n
  = (take (Z.to_nat n) (drop k data), false,
     {| content := data; pos := Z.of_nat (k + length (take (Z.to_nat n) (drop k data))) |}).
Proof.
  intros Hn Hk. unfold IO.Read.
  destruct (Z.leb_spec n 0); [lia|]. simpl.
  rewrite Nat2Z.id.
  destruct (take (Z.to_nat n) (drop k data)) as [|x got] eqn:E.
  - exfalso. apply (f_equal length) in E. rewrite length_take, length_drop in E.
    simpl in E. lia.
  - unfold len. do 2 f_equal. lia.
Qed.

Lemma scan_round_grows (data : list byte) (f : nat) (s : Scanner) :
  err s = None ->
  src s = {| content := data; pos := len (buf s) |} ->
  buf s = take (length (buf s)) data ->
  len (buf s) = cap s ->
  cap s = 0 \/ startBufSize <= cap s ->
  cap s < MaxScanTokenSize ->
  LF ∉ buf s ->
  (length (buf s) < length data)%nat ->
  exists s',
    scanLoop (S f) s = scanLoop f s' /\
    err s' = None /\
    src s' = {| content := data; pos := len (buf s') |} /\
    cap s' = Z.min (2 * Z.max (cap s) 2048) MaxScanTokenSize /\
    buf s' = take (Z.to_nat (cap s')) data.
Proof.
  intros Herr Hsrc Hbuf Hfull Hcap Hsmall Hno Hmore.
  pose proof (len_nonneg (buf s)).
  unfold startBufSize, MaxScanTokenSize in *.
  set (cap' := Z.min (2 * Z.max (cap s) 2048) (64 * 1024)).
  assert (cap s < cap') as Hgrow by (unfold cap'; lia).
  set (s1 := {| src := src s; buf := buf s; cap := cap'; err := err s |}).
  assert (fill s1 = {| src := {| content := data; pos := len (take (Z.to_nat cap') data) |};
                       buf := take (Z.to_nat cap') data; cap := cap'; err := None |}) as Hfill.
  { unfold fill, s1; simpl. rewrite Hsrc. unfold len at 1 2.
    rewrite Read_some; [| unfold len in *; lia | assumption].
    assert (buf s ++ take (Z.to_nat (cap' - Z.of_nat (length (buf s)))) (drop (length (buf s)) data)
            = take (Z.to_nat cap') data) as Hnew.
    { rewrite Hbuf at 1. rewrite take_take_drop. f_equal. unfold len in *. lia. }
    rewrite <- length_app, Hnew, Herr. reflexivity. }
  exists (fill s1). split; [|rewrite Hfill; simpl; auto].
  simpl. rewrite Herr.
  assert ((if (0 <? len (buf s)) || bool_decide (is_Some (@None ScanError))
           then (ScanLines (buf s) (bool_decide (is_Some (@None ScanError)))).2
           else None) = None) as ->.
  { rewrite bool_decide_eq_false_2 by (intros [? ?]; discriminate).
    destruct (0 <? len (buf s)); [|reflexivity]. simpl.
    unfold ScanLines. simpl. rewrite IndexByte_absent by assumption.
    reflexivity. }
  rewrite bool_decide_eq_false_2 by (intros [? ?]; discriminate).
  rewrite Hfull, Z.eqb_refl.
  destruct (Z.leb_spec (MaxScanTokenSize) (cap s));
    [unfold MaxScanTokenSize in *; lia|].
  unfold startBufSize, MaxScanTokenSize. fold cap'.
  replace (Z.min (if cap s * 2 =? 0 then 4096 else cap s * 2) (64 * 1024)) with cap'.
  2:{ unfold cap'. destruct (Z.eqb_spec (cap s * 2) 0); lia. }
  subst s1. rewrite <- Herr. reflexivity.
Qed.

Section FirstLine.
Variables (line rest : list byte).
Hypothesis line_no_LF : LF ∉ line.
Hypothesis line_short : len line < MaxScanTokenSize.

Local Abbreviation data := (line ++ LF :: rest).
Local Abbreviation fills := (filling line data).

Lemma filling_found (f : nat) (s : Scanner) :
  fills s -> len line < len (buf s) ->
  scanLoop (S f) s = Some (Some (dropCR line), s).
Proof.
  intros (Herr & Hsrc & Hbuf & _ & _) Hlt. simpl.
  pose proof (len_nonneg line).
  rewrite Herr.
  destruct (Z.ltb_spec 0 (len (buf s))); [|lia]. simpl.
  unfold ScanLines. simpl.
  assert (buf s = line ++ LF :: take (length (buf s) - length line - 1) rest) as Hshape.
  { rewrite Hbuf at 1. rewrite take_app_ge by (unfold len in *; lia).
    f_equal.
    destruct (length (buf s) - length line)%nat as [|d] eqn:E;
      [unfold len in *; lia|].
    simpl. do 2 f_equal. lia. }
  assert (Bytes.IndexByte (buf s) LF = len line) as ->
    by (rewrite Hshape; apply IndexByte_first; assumption).
  assert (Bytes.slice (buf s) 0 (len line) = line) as ->.
  { unfold Bytes.slice. rewrite Z.sub_0_r. unfold len. rewrite Nat2Z.id.
    simpl drop. rewrite Hshape. apply take_app_length. }
  destruct (Z.leb_spec 0 (len line)); [|lia]. reflexivity.
Qed.

Lemma filling_grows (f : nat) (s : Scanner) :
  fills s -> len (buf s) <= len line ->
  exists s', scanLoop (S f) s = scanLoop f s' /\ fills s' /\
    cap s' = Z.min (2 * Z.max (cap s) 2048) MaxScanTokenSize.
Proof.
  intros (Herr & Hsrc & Hbuf & Hfull & Hcap) Hle.
  pose proof (len_nonneg line). pose proof (len_nonneg (buf s)).
  destruct Hfull as [?|Hfull]; [lia|].
  destruct (scan_round_grows data f s)
    as (s' & Hstep & Herr' & Hsrc' & Hcap' & Hbuf'); try assumption.
  - lia.
  - rewrite Hbuf. rewrite take_app_le by (unfold len in *; lia).
    intros Hin. apply line_no_LF.
    rewrite <- (take_drop (length (buf s)) line). apply elem_of_app. now left.
  - rewrite length_app. simpl. unfold len in *. lia.
  - exists s'. split; [exact Hstep|]. split; [|exact Hcap'].
    assert (length (buf s') = Nat.min (Z.to_nat (cap s')) (length data)) as Hlen
      by (rewrite Hbuf' at 1; apply length_take).
    unfold filling. split; [assumption|]. split; [assumption|]. split; [|split].
    + rewrite Hlen. rewrite Hbuf' at 1.
      destruct (Nat.min_spec (Z.to_nat (cap s')) (length data)) as [[? ->]|[? ->]];
        [reflexivity|].
      rewrite !take_ge by lia. reflexivity.
    + unfold len in *. rewrite Hlen, length_app. simpl.
      unfold startBufSize, MaxScanTokenSize in *. lia.
    + right. unfold startBufSize, MaxScanTokenSize in *. lia.
Qed.

Lemma scanLoop_finds_line (f : nat) (s : Scanner) :
  fills s ->
  MaxScanTokenSize <= Z.max (cap s) 2048 * 2 ^ Z.of_nat f ->
  exists s', scanLoop (S f) s = Some (Some (dropCR line), s') /\
             content (src s') = data.
Proof.
  revert s. induction f as [|f IH]; intros s Hs Hfuel.
  - assert (len line < len (buf s)) as Hlt.
    { destruct Hs as (_ & _ & _ & Hfull & _).
      unfold MaxScanTokenSize in *. simpl in Hfuel.
      pose proof (len_nonneg (buf s)). lia. }
    exists s. rewrite (filling_found 0 s Hs Hlt).
    destruct Hs as (_ & -> & _). auto.
  - destruct (Z.lt_ge_cases (len line) (len (buf s))) as [Hlt|Hge].
    + exists s. rewrite (filling_found (S f) s Hs Hlt).
      destruct Hs as (_ & -> & _). auto.
    + destruct (filling_grows (S f) s Hs Hge) as (s' & -> & Hs' & Hcap').
      apply IH; [assumption|].
      rewrite Hcap'. unfold MaxScanTokenSize in *.
      rewrite Nat2Z.inj_succ, Z.pow_succ_r in Hfuel by lia.
      assert (1 <= 2 ^ Z.of_nat f)
        by (apply Z.pow_le_mono_r with (b := 0) (c := Z.of_nat f); lia).
      nia.
Qed.

(** The first call of [Scan] on a file that begins with a line
    shorter than the largest token returns that line. *)
Lemma ScanFirst_line :
  exists r1, ScanFirst {| content := data; pos := 0 |} = (Some (dropCR line), r1)
             /\ content r1 = data.
Proof.
  unfold ScanFirst, scanFuel.
  destruct (scanLoop_finds_line 7 (NewScanner {| content := data; pos := 0 |}))
    as (s' & -> & Hs').
  - unfold filling, NewScanner, startBufSize; simpl. auto 10.
  - unfold MaxScanTokenSize. simpl. lia.
  - eauto.
Qed.
End FirstLine.

Section LongLine.
Variable data : list byte.
Hypothesis data_long : MaxScanTokenSize <= len data.
Hypothesis no_LF : LF ∉ take (Z.to_nat MaxScanTokenSize) data.

Local Abbreviation full := (brimful data).

Lemma brimful_len (s : Scanner) : full s -> len (buf s) = cap s.
Proof.
  intros (_ & _ & Hbuf & Hcap & Hmax). rewrite Hbuf. unfold len.
  rewrite length_take. unfold startBufSize, MaxScanTokenSize, len in *. lia.
Qed.

Lemma brimful_no_LF (s : Scanner) : full s -> LF ∉ buf s.
Proof.
  intros (_ & _ & Hbuf & Hcap & Hmax) Hin. apply no_LF.
  rewrite Hbuf in Hin.
  rewrite <- (take_drop (Z.to_nat (cap s)) (take (Z.to_nat MaxScanTokenSize) data)).
  apply elem_of_app. left. rewrite take_take.
  replace (Z.to_nat (cap s) `min` Z.to_nat MaxScanTokenSize)%nat with (Z.to_nat (cap s)) by lia.
  exact Hin.
Qed.

Lemma brimful_gives_up (f : nat) (s : Scanner) :
  full s -> cap s = MaxScanTokenSize ->
  scanLoop (S f) s
  = Some (None, {| src := {| content := data; pos := MaxScanTokenSize |};
                   buf := take (Z.to_nat MaxScanTokenSize) data;
                   cap := MaxScanTokenSize; err := Some ErrTooLong |}).
Proof.
  intros Hs Hcap. pose proof (brimful_len s Hs) as Hlen.
  pose proof (brimful_no_LF s Hs) as Hno.
  destruct Hs as (Herr & Hsrc & Hbuf & _ & _). simpl. rewrite Herr.
  assert ((if (0 <? len (buf s)) || bool_decide (is_Some (@None ScanError))
           then (ScanLines (buf s) (bool_decide (is_Some (@None ScanError)))).2
           else None) = None) as ->.
  { rewrite bool_decide_eq_false_2 by (intros [? ?]; discriminate).
    destruct (0 <? len (buf s)); [|reflexivity]. simpl.
    unfold ScanLines. simpl. rewrite IndexByte_absent by assumption.
    reflexivity. }
  rewrite bool_decide_eq_false_2 by (intros [? ?]; discriminate).
  rewrite Hlen, Z.eqb_refl, Hsrc, Hbuf, Hcap.
  destruct (Z.leb_spec MaxScanTokenSize MaxScanTokenSize); [reflexivity | lia].
Qed.

Lemma scanLoop_too_long (f : nat) (s : Scanner) :
  full s ->
  MaxScanTokenSize <= Z.max (cap s) 2048 * 2 ^ Z.of_nat f ->
  scanLoop (S f) s
  = Some (None, {| src := {| content := data; pos := MaxScanTokenSize |};
                   buf := take (Z.to_nat MaxScanTokenSize) data;
                   cap := MaxScanTokenSize; err := Some ErrTooLong |}).
Proof.
  revert s. induction f as [|f IH]; intros s Hs Hfuel.
  - apply brimful_gives_up; [assumption|].
    destruct Hs as (_ & _ & _ & Hcap & Hmax).
    unfold MaxScanTokenSize, startBufSize in *. simpl in Hfuel. lia.
  - destruct (Z.eq_dec (cap s) MaxScanTokenSize) as [Heq|Hne];
      [now apply brimful_gives_up|].
    pose proof (brimful_len s Hs) as Hlen.
    pose proof (brimful_no_LF s Hs) as Hno.
    pose proof Hs as (Herr & Hsrc & Hbuf & Hcap & Hmax).
    destruct (scan_round_grows data (S f) s) as (s' & -> & Herr' & Hsrc' & Hcap' & Hbuf');
      try assumption.
    + rewrite Hlen. exact Hsrc.
    + rewrite Hbuf at 1. f_equal. unfold len in Hlen. lia.
    + lia.
    + unfold len, MaxScanTokenSize in *. lia.
    + assert (full s') as Hs'.
      { unfold brimful. split; [assumption|]. split; [|split; [assumption|]].
        - rewrite Hsrc'. f_equal. rewrite Hbuf'. unfold len. rewrite length_take.
          unfold MaxScanTokenSize, len in *. lia.
        - unfold MaxScanTokenSize, startBufSize in *. lia. }
      apply IH; [assumption|].
      rewrite Hcap'. unfold MaxScanTokenSize, startBufSize in *.
      rewrite Nat2Z.inj_succ, Z.pow_succ_r in Hfuel by lia.
      assert (1 <= 2 ^ Z.of_nat f)
        by (apply Z.pow_le_mono_r with (b := 0) (c := Z.of_nat f); lia).
      nia.
Qed.

(** X3: with a first line of 64 KiB or more, which is more than the
    scanner takes for a token, the scanner gives up and [stripEmlx]
    reports that it found no first line; the stream it hands back
    stands behind the 64 KiB that were read. *)
Lemma stripEmlx_line_too_long :
  stripEmlx {| content := data; pos := 0 |}
  = (Some (IO.Raw {| content := data; pos := MaxScanTokenSize |}), Some NoFirstLine).
Proof.
  unfold stripEmlx, ScanFirst, scanFuel.
  rewrite (scanLoop_too_long 7 (NewScanner {| content := data; pos := 0 |})).
  - reflexivity.
  - unfold brimful, startBufSize, MaxScanTokenSize; simpl.
    repeat split; auto; lia.
  - unfold MaxScanTokenSize. simpl. lia.
Qed.
End LongLine.


Lemma Read_content (r : ReadSeeker) (n : Z) :
  content (IO.Read r n).2 = content r.
Proof.
  unfold IO.Read. destruct (n <=? 0); [reflexivity|].
  destruct (take _ _); reflexivity.
Qed.

Lemma fill_content (s : Scanner) : content (src (fill s)) = content (src s).
Proof.
  unfold fill. pose proof (Read_content (src s) (cap s - len (buf s))) as H.
  destruct (IO.Read _ _) as [[got eof] r']. exact H.
Qed.

Lemma scanLoop_content (f : nat) (s : Scanner) res :
  scanLoop f s = Some res -> content (src res.2) = content (src s).
Proof.
  revert s. induction f as [|f IH]; intros s; simpl; [discriminate|].
  destruct (if _ : bool then _ else _) as [tok|].
  - intros [= <-]. reflexivity.
  - destruct (bool_decide (is_Some (err s))); [intros [= <-]; reflexivity|].
    destruct (len (buf s) =? cap s).
    + destruct (MaxScanTokenSize <=? cap s); [intros [= <-]; reflexivity|].
      intros H. apply IH in H. rewrite H, fill_content. reflexivity.
    + intros H. apply IH in H. rewrite H, fill_content. reflexivity.
Qed.

Lemma fill_rounds (s : Scanner) (f : nat) :
  err s = None -> 0 <= pos (src s) -> len (buf s) < cap s -> (1 <= f)%nat ->
  startBufSize <= cap s ->
  (2 <= f)%nat /\ MaxScanTokenSize <= cap s * 2 ^ (Z.of_nat f - 2)
  \/ drop (Z.to_nat (pos (src s))) (content (src s)) = [] ->
  rounds (fill s) f.
Proof.
  intros Herr Hpos Hroom Hf Hcap Hcase. unfold fill, IO.Read.
  destruct (Z.leb_spec (cap s - len (buf s)) 0); [lia|].
  set (n := Z.to_nat (cap s - len (buf s))).
  destruct (take n (drop (Z.to_nat (pos (src s))) (content (src s)))) as [|x got] eqn:E.
  - unfold rounds. simpl. assumption.
  - unfold rounds. simpl. rewrite Herr.
    destruct Hcase as [[Hf2 Hfuel]|Hex]; [|rewrite Hex, take_nil in E; discriminate].
    pose proof (f_equal length E) as Hlen. rewrite length_take in Hlen. simpl in Hlen.
    pose proof (len_nonneg (x :: got)).
    split; [lia|]. split; [assumption|].
    rewrite len_app. unfold len at 2 4. simpl length.
    destruct (Nat.eq_dec (S (length got)) n) as [Hfull|Hshort].
    + left. split; [unfold n in *; lia|]. split; [right; assumption|].
      unfold startBufSize in *. rewrite Z.max_l by lia. assumption.
    + right. split; [unfold n in *; lia|].
      apply length_zero_iff_nil. rewrite length_drop in *.
      unfold len in *. simpl length in *. lia.
Qed.

Lemma scanLoop_total (f : nat) (s : Scanner) :
  rounds s f -> is_Some (scanLoop f s).
Proof.
  revert s. induction f as [|f IH]; intros s Hs.
  - unfold rounds in Hs. destruct (err s); lia.
  - simpl. destruct (if _ : bool then _ else _) as [tok|]; [eauto|].
    unfold rounds in Hs. destruct (err s) as [e|] eqn:Herr.
    + rewrite bool_decide_eq_true_2 by eauto. eauto.
    + rewrite bool_decide_eq_false_2 by (intros [? ?]; discriminate).
      destruct Hs as (Hpos & Hf & [(Hfull & Hcap & Hfuel)|(Hroom & Hex)]).
      * rewrite Hfull, Z.eqb_refl.
        destruct (Z.leb_spec MaxScanTokenSize (cap s)); [eauto|].
        apply IH. unfold MaxScanTokenSize, startBufSize in *.
        pose proof (len_nonneg (buf s)).
        replace (Z.of_nat (S f) - 2) with (Z.of_nat f - 1) in Hfuel by lia.
        assert (2 <= f)%nat as Hf2.
        { destruct f as [|[|f]]; [lia| |lia]. simpl in Hfuel. lia. }
        assert (2 ^ (Z.of_nat f - 1) = 2 * 2 ^ (Z.of_nat f - 2)) as Hpow.
        { rewrite <- Z.pow_succ_r by lia. f_equal. lia. }
        assert (1 <= 2 ^ (Z.of_nat f - 2))
          by (apply Z.pow_le_mono_r with (b := 0) (c := Z.of_nat f - 2); lia).
        set (cap' := Z.min (if cap s * 2 =? 0 then 4096 else cap s * 2) (64 * 1024)).
        assert (cap' = Z.min (2 * Z.max (cap s) 2048) (64 * 1024)) as Hcap'
          by (unfold cap'; destruct (Z.eqb_spec (cap s * 2) 0); lia).
        apply fill_rounds; simpl; try assumption; try lia.
        { reflexivity. }
        { unfold startBufSize. lia. }
        left. split; [assumption|]. unfold MaxScanTokenSize. nia.
      * destruct (Z.eqb_spec (len (buf s)) (cap s)); [lia|].
        apply IH. pose proof (len_nonneg (buf s)).
        unfold rounds, fill, IO.Read.
        destruct (Z.leb_spec (cap s - len (buf s)) 0); [lia|].
        rewrite Hex, take_nil. simpl. lia.
Qed.

Lemma trimLeft_keeps_CR (l : list byte) :
  exists t, Bytes.trimLeft (l ++ [CR]) SP = t ++ [CR].
Proof.
  induction l as [|x l IH]; simpl.
  - exists []. reflexivity.
  - case_bool_decide; [exact IH|]. exists (x :: l). reflexivity.
Qed.

Lemma Trim_keeps_CR (l : list byte) :
  exists t, Bytes.Trim (l ++ [CR]) SP = t ++ [CR].
Proof.
  unfold Bytes.Trim, Bytes.trimRight.
  destruct (trimLeft_keeps_CR l) as [t ->]. exists t.
  rewrite rev_app_distr. simpl. rewrite rev_involutive. reflexivity.
Qed.

Lemma string_of_list_byte_app (a b : list byte) :
  String.string_of_list_byte (a ++ b)
  = String.string_of_list_byte a +:+ String.string_of_list_byte b.
Proof.
  unfold String.string_of_list_byte.
  induction a as [|x a IH]; simpl; [reflexivity|]. now rewrite IH.
Qed.

Lemma parseUint_last (s : string) (c : ascii) (n v : Z) :
  Strconv.parseUint (s +:+ String c "") n = inl v -> is_Some (Strconv.digit c).
Proof.
  revert n. induction s as [|c0 s IH]; simpl; intros n.
  - destruct (Strconv.digit c); [eauto | discriminate].
  - destruct (Strconv.digit c0); [|discriminate].
    destruct (_ <? _); [discriminate|]. apply IH.
Qed.

Lemma Atoi_last (s : string) (c : ascii) (v : Z) :
  Strconv.Atoi (s +:+ String c "") = inl v -> is_Some (Strconv.digit c).
Proof.
  unfold Strconv.Atoi.
  assert (forall (neg : bool) (body : string),
    match body +:+ String c "" with
    | "" => inr Strconv.ErrSyntax
    | String _ _ =>
        match Strconv.parseUint (body +:+ String c "") 0 with
        | inl un =>
            if neg then (if 2 ^ 63 <? un then inr Strconv.ErrRange else inl (- un))
            else (if 2 ^ 63 <=? un then inr Strconv.ErrRange else inl un)
        | inr e => inr e
        end
    end = inl v -> is_Some (Strconv.digit c)) as Hbody.
  { intros neg body. destruct (body +:+ String c "") eqn:E; [discriminate|].
    rewrite <- E. destruct (Strconv.parseUint _ 0) eqn:P; [|discriminate].
    intros _. eapply parseUint_last; eauto. }
  destruct s as [|c0 s]; simpl.
  - destruct (Ascii.eqb c "+"); [discriminate|].
    destruct (Ascii.eqb c "-"); [discriminate|]. apply (Hbody false "").
  - destruct (Ascii.eqb c0 "+"); [apply (Hbody false s)|].
    destruct (Ascii.eqb c0 "-"); [apply (Hbody true s)|].
    apply (Hbody false (String c0 s)).
Qed.

Lemma Atoi_dropCR (line : list byte) (n : Z) :
  Strconv.Atoi (String.string_of_list_byte (Bytes.Trim line SP)) = inl n ->
  dropCR line = line.
Proof.
  intros Hn. unfold dropCR. destruct (rev line) as [|c tail] eqn:E; [reflexivity|].
  case_bool_decide as Hc; [|reflexivity]. exfalso. subst c.
  assert (line = rev tail ++ [CR]) as ->
    by (rewrite <- (rev_involutive line), E; reflexivity).
  destruct (Trim_keeps_CR (rev tail)) as [t Ht]. rewrite Ht in Hn.
  rewrite string_of_list_byte_app in Hn. apply Atoi_last in Hn.
  destruct Hn as [d Hd]. discriminate.
Qed.

Lemma drop_length_take {A} (n : nat) (l : list A) :
  drop (length (take n l)) l = drop n l.
Proof.
  rewrite length_take. destruct (Nat.min_spec n (length l)) as [[? ->]|[? ->]];
    [reflexivity|]. rewrite !drop_ge by lia. reflexivity.
Qed.

Lemma reads_limited (pre msg trailer : list byte) (sizes : list Z) (k : nat) :
  (k <= length msg)%nat ->
  IO.reads
    (IO.Limited {| IO.R := {| content := pre ++ msg ++ trailer;
                             pos := len pre + Z.of_nat k |};
                   IO.N := len msg - Z.of_nat k |}) sizes
  = take (total sizes) (drop k msg).
Proof.
  revert k. induction sizes as [|n sizes IH]; intros k Hk; simpl.
  - reflexivity.
  - unfold IO.LimitedRead. simpl.
    destruct (Z.leb_spec (len msg - Z.of_nat k) 0) as [Hend|Hmore].
    { rewrite drop_ge by (unfold len in *; lia). now rewrite take_nil. }
    set (n' := if len msg - Z.of_nat k <? n then len msg - Z.of_nat k else n).
    unfold IO.Read. simpl.
    destruct (Z.leb_spec n' 0) as [Hn'|Hn'].
    { simpl. change (len []) with 0. rewrite Z.sub_0_r. rewrite IH by assumption.
      replace (Z.to_nat n) with 0%nat; [reflexivity|].
      unfold n' in Hn'. destruct (Z.ltb_spec (len msg - Z.of_nat k) n); lia. }
    assert (take (Z.to_nat n') (drop (Z.to_nat (len pre + Z.of_nat k)) (pre ++ msg ++ trailer))
            = take (Z.to_nat n) (drop k msg)) as ->.
    { replace (Z.to_nat (len pre + Z.of_nat k)) with (length pre + k)%nat
        by (unfold len; lia).
      rewrite <- drop_drop, drop_app_length, drop_app_le by assumption.
      rewrite take_app_le by (rewrite length_drop; unfold n', len in *;
        destruct (Z.ltb_spec (Z.of_nat (length msg) - Z.of_nat k) n); lia).
      unfold n'. destruct (Z.ltb_spec (len msg - Z.of_nat k) n); [|reflexivity].
      rewrite !take_ge; [reflexivity| |]; rewrite length_drop; unfold len in *; lia. }
    destruct (take (Z.to_nat n) (drop k msg)) as [|x got] eqn:E.
    { exfalso. apply (f_equal length) in E. rewrite length_take, length_drop in E.
      simpl in E. unfold n', len in *.
      destruct (Z.ltb_spec (Z.of_nat (length msg) - Z.of_nat k) n); lia. }
    simpl. rewrite <- E.
    set (got' := take (Z.to_nat n) (drop k msg)).
    replace (len pre + Z.of_nat k + len got') with (len pre + Z.of_nat (k + length got'))
      by (unfold len; lia).
    replace (len msg - Z.of_nat k - len got') with (len msg - Z.of_nat (k + length got'))
      by (unfold len; lia).
    rewrite IH.
    2:{ unfold got'. rewrite length_take, length_drop. lia. }
    rewrite <- drop_drop. unfold got'. rewrite drop_length_take.
    rewrite app_comm_cons, <- E. apply take_take_drop.
Qed.

(** The loop of [Scan] never needs more rounds than [scanFuel]. *)
Lemma ScanFirst_fuel (r : ReadSeeker) :
  0 <= pos r -> is_Some (scanLoop scanFuel (NewScanner r)).
Proof.
  intros Hpos. apply scanLoop_total. unfold rounds, NewScanner, scanFuel; simpl.
  split; [assumption|]. split; [lia|]. left.
  unfold MaxScanTokenSize, startBufSize. change (len []) with 0.
  change (2 ^ (Z.of_nat 8 - 2)) with 64. lia.
Qed.

Lemma ScanFirst_content (r : ReadSeeker) tok r1 :
  ScanFirst r = (tok, r1) -> content r1 = content r.
Proof.
  unfold ScanFirst. destruct (scanLoop scanFuel (NewScanner r)) as [[tok' s]|] eqn:E.
  - intros [= _ <-]. apply (scanLoop_content _ _ _ E).
  - now intros [= _ <-].
Qed.

(** ** Stripping the framing *)

(** C2: a stream that starts with a line holding the length [n],
    padded with spaces or not, ended by a line feed and followed by
    [n] bytes of message and any trailer, the line being shorter than
    the scanner's largest token. [stripEmlx] returns, with no error,
    a reader limited to [n] bytes over the stream repositioned to the
    offset [len line + 1]; reading it to the end gives the message,
    and whatever sizes are read, the bytes that come out are a prefix
    of the message, none of the trailer. *)
Theorem stripEmlx_isolates_message (line msg trailer : list byte) (n : Z) :
  LF ∉ line ->
  len line < MaxScanTokenSize ->
  Strconv.Atoi (String.string_of_list_byte (Bytes.Trim line SP)) = inl n ->
  len msg = n ->
  let r := {| content := line ++ LF :: msg ++ trailer; pos := 0 |} in
  let rd := IO.Limited {| IO.R := {| content := content r; pos := len line + 1 |};
                          IO.N := n |} in
  stripEmlx r = (Some rd, None) /\
  IO.ReadAll rd = msg /\
  forall sizes, IO.reads rd sizes = take (total sizes) msg.
Proof.
  intros Hline Hshort Hn Hmsg r rd.
  assert (forall sizes, IO.reads rd sizes = take (total sizes) msg) as Hreads.
  { intros sizes. unfold rd, r. simpl content.
    pose proof (reads_limited (line ++ [LF]) msg trailer sizes 0) as H.
    rewrite len_app, Z.add_0_r, Z.sub_0_r, <- app_assoc in H. simpl in H.
    change (len [LF]) with 1 in H. rewrite <- Hmsg. apply H. lia. }
  split; [|split; [|exact Hreads]].
  - unfold stripEmlx.
    destruct (ScanFirst_line line (msg ++ trailer) Hline Hshort) as (r1 & Hscan & Hr1).
    fold r in Hscan. rewrite Hscan, (Atoi_dropCR line n Hn), Hn.
    unfold rd, IO.SeekStart. rewrite Hr1. reflexivity.
  - unfold IO.ReadAll. rewrite Hreads. apply take_ge.
    assert (forall k, total (replicate k 512) = (k * 512)%nat) as ->.
    { induction k as [|k IH]; simpl; [reflexivity|]. rewrite IH. lia. }
    unfold rd, r. simpl. rewrite length_app. simpl. rewrite length_app. lia.
Qed.

(** The scenario of the specification: the line [120], 120 bytes of
    message and 40 bytes of trailer give the 120 bytes, not 160. *)
Lemma stripEmlx_120_of_160 :
  let r := {| content := Examples.emlx120; pos := 0 |} in
  let rd := IO.Limited {| IO.R := {| content := Examples.emlx120; pos := 4 |};
                          IO.N := 120 |} in
  stripEmlx r = (Some rd, None) /\
  IO.ReadAll rd = replicate 120 Byte.x41 /\
  forall sizes, IO.reads rd sizes = take (total sizes) (replicate 120 Byte.x41).
Proof.
  apply (stripEmlx_isolates_message (bytes "120") (replicate 120 Byte.x41)
           (replicate 40 Byte.x42) 120).
  - refine (bool_decide_unpack _ _). vm_compute. exact I.
  - vm_compute. reflexivity.
  - vm_compute. reflexivity.
  - vm_compute. reflexivity.
Defined.

(** Padding of the first line moves the offset and nothing else. *)
Example stripEmlx_padded :
  let data := bytes "  3 " ++ [LF] ++ bytes "abcXYZ" in
  option_map IO.ReadAll (stripEmlx {| content := data; pos := 0 |}).1
  = Some (bytes "abc").
Proof. vm_compute. reflexivity. Qed.

(** The scanner drops a carriage return before the line feed, and
    the offset is counted from the line without it: the reader then
    starts at the line feed. *)
Example stripEmlx_CRLF :
  let data := bytes "3" ++ [CR; LF] ++ bytes "abcXYZ" in
  option_map IO.ReadAll (stripEmlx {| content := data; pos := 0 |}).1
  = Some ([LF] ++ bytes "ab").
Proof. vm_compute. reflexivity. Qed.

(** C7: when the first line does not hold an integer, [stripEmlx]
    returns the error of the conversion together with a reader that
    is not [nil]: the stream it was given, not limited and not
    repositioned, as the scanner's reads left it. *)
Theorem stripEmlx_fallback_reader
  (r : ReadSeeker) (original : list byte) (r1 : ReadSeeker) (e : Strconv.NumError) :
  ScanFirst r = (Some original, r1) ->
  Strconv.Atoi (String.string_of_list_byte (Bytes.Trim original SP)) = inr e ->
  stripEmlx r = (Some (IO.Raw r1), Some (NumError e)) /\ content r1 = content r.
Proof.
  intros Hscan Hnum. split.
  - unfold stripEmlx. rewrite Hscan, Hnum. reflexivity.
  - eapply ScanFirst_content; eauto.
Qed.

Lemma stripEmlx_fallback_hello :
  stripEmlx {| content := bytes "hello"; pos := 0 |}
  = (Some (IO.Raw {| content := bytes "hello"; pos := 5 |}),
     Some (NumError Strconv.ErrSyntax))
  /\ content {| content := bytes "hello"; pos := 5 |} = bytes "hello".
Proof.
  apply (stripEmlx_fallback_reader {| content := bytes "hello"; pos := 0 |}
           (bytes "hello")).
  - vm_compute. reflexivity.
  - vm_compute. reflexivity.
Defined.

(** X4: whatever the stream, [stripEmlx] hands back a reader that is
    not [nil], and with an error it is the stream itself, over the
    same bytes and not limited. *)
Lemma stripEmlx_never_nil (r : ReadSeeker) :
  exists rd, (stripEmlx r).1 = Some rd /\
    ((stripEmlx r).2 = None \/ exists r1, rd = IO.Raw r1 /\ content r1 = content r).
Proof.
  unfold stripEmlx. destruct (ScanFirst r) as [[original|] r1] eqn:Hscan.
  - destruct (Strconv.Atoi _); simpl; eauto.
    eexists; split; [reflexivity|]. right. eexists; split; [reflexivity|].
    eapply ScanFirst_content; eauto.
  - simpl. eexists; split; [reflexivity|]. right. eexists; split; [reflexivity|].
    eapply ScanFirst_content; eauto.
Qed.

(** ** The query engine *)

Lemma newer_transitive : Transitive SQL.newer.
Proof. unfold SQL.newer. intros a b c ? ?. lia. Qed.

Lemma newer_total : Total SQL.newer.
Proof. unfold SQL.newer. intros a b. lia. Qed.

Lemma StronglySorted_take {A} (R : relation A) (n : nat) (l : list A) :
  StronglySorted R l -> StronglySorted R (take n l).
Proof.
  intros H. rewrite <- (take_drop n l) in H.
  now apply StronglySorted_app_1_l in H.
Qed.

Lemma StronglySorted_drop {A} (R : relation A) (n : nat) (l : list A) :
  StronglySorted R l -> StronglySorted R (drop n l).
Proof.
  intros H. rewrite <- (take_drop n l) in H.
  now apply StronglySorted_app_1_r in H.
Qed.

(** The clauses after [ORDER BY] keep the order. *)
Lemma clauses_after_order (rows : list Row) (vars : list SQL.Value) (cs : list SQL.Clause) out :
  cs = [] \/ cs = [SQL.LimitOffset] ->
  StronglySorted SQL.newer rows ->
  SQL.clauses cs rows vars = Some out -> StronglySorted SQL.newer out.
Proof.
  intros [->| ->] Hs; simpl.
  - destruct vars; [|discriminate]. now intros [= <-].
  - destruct vars as [|[?|limit] [|[?|offset] vars]]; try discriminate. simpl.
    destruct vars; [|discriminate]. intros [= <-].
    destruct (limit <? 0); [|apply StronglySorted_take];
      now apply StronglySorted_drop.
Qed.

(** Every statement that [Query] builds orders by the time of
    receipt, and what follows the ordering keeps it. *)
Lemma Query_statement (m : Mailboxes) (mq : MailboxQuery) :
  exists before after,
    query (Query m mq) = before ++ SQL.OrderByDateDesc :: after /\
    (before = [] \/ before = [SQL.WhereUrl]) /\
    (after = [] \/ after = [SQL.LimitOffset]).
Proof.
  unfold Query; simpl.
  destruct (negb (IsEmpty (mqMailbox mq))), (0 <? BatchResults mq); simpl.
  - exists [SQL.WhereUrl], [SQL.LimitOffset]. auto.
  - exists [SQL.WhereUrl], []. auto.
  - exists [], [SQL.LimitOffset]. auto.
  - exists [], []. auto.
Qed.

Lemma SQL_Query_sorted (db : list Row) (before after : list SQL.Clause) vars out :
  before = [] \/ before = [SQL.WhereUrl] ->
  after = [] \/ after = [SQL.LimitOffset] ->
  SQL.Query db (before ++ SQL.OrderByDateDesc :: after) vars = Some out ->
  StronglySorted SQL.newer out.
Proof.
  intros Hb Ha. unfold SQL.Query.
  assert (forall rows vars, SQL.clauses (SQL.OrderByDateDesc :: after) rows vars = Some out ->
            StronglySorted SQL.newer out) as Hord.
  { intros rows vars'. simpl. apply clauses_after_order; [assumption|].
    apply StronglySorted_merge_sort; [apply newer_transitive | apply newer_total]. }
  destruct Hb as [->| ->]; simpl app.
  - apply Hord.
  - simpl. destruct vars as [|[u|?] vars]; try discriminate. apply Hord.
Qed.

Lemma afterCalls_Query (url_Parse : string -> option ParsedURL) (n : nat)
  (m : Mailboxes) (mq : MailboxQuery) :
  afterCalls url_Parse n (Query m mq) = Query m mq.
Proof. induction n as [|n IH]; [reflexivity|]. simpl. exact IH. Qed.

(** The loop converts the rows in their order. *)
Lemma eachRow_in_order (url_Parse : string -> option ParsedURL)
  (url2path : gmap string string) (rows : list Row) (acc msgs : list Message) :
  eachRow url_Parse url2path rows acc = Done (msgs, None) ->
  exists converted, msgs = acc ++ converted /\
    Forall2 (fun row msg => messageOf url_Parse url2path row = Some msg) rows converted.
Proof.
  revert acc. induction rows as [|row rows IH]; intros acc; simpl.
  - intros [= <-]. exists []. rewrite app_nil_r. auto.
  - destruct (url row) as [u|] eqn:Hu; [|discriminate].
    destruct (url_Parse u) as [parsed|] eqn:Hp; [|discriminate].
    destruct (url2path !! _) as [basePath|] eqn:Hb; [|discriminate].
    destruct (emlPathFromROWID (ROWID row)) as [shard|] eqn:Hs; [|discriminate].
    simpl. intros H. apply IH in H as (converted & -> & Hall).
    eexists (_ :: converted). rewrite <- app_assoc. split; [reflexivity|].
    constructor; [|assumption].
    unfold messageOf, relativePath. rewrite Hu. simpl. rewrite Hp. simpl.
    rewrite Hb. simpl. rewrite Hs. reflexivity.
Qed.

(** C8: whatever the query, filtered or not and in batches or not,
    and whichever call of its function it is, the list that a call
    returns is the image, in order, of rows that the index store has
    put newest first. *)
Theorem Query_newest_first (url_Parse : string -> option ParsedURL)
  (m : Mailboxes) (mq : MailboxQuery) (calls : nat) (msgs : list Message) :
  let f := afterCalls url_Parse calls (Query m mq) in
  (call url_Parse f).1 = Done (msgs, None) ->
  exists rows,
    fetch f = Done (Some rows) /\
    StronglySorted SQL.newer rows /\
    Forall2 (fun row msg => messageOf url_Parse (url2path m) row = Some msg) rows msgs.
Proof.
  intros f. unfold f. rewrite afterCalls_Query. unfold call. simpl.
  destruct (fetch (Query m mq)) as [[rows|]|] eqn:Hfetch; simpl; try discriminate.
  intros Hloop. exists rows. split; [reflexivity|]. split.
  - unfold fetch in Hfetch.
    destruct (variables (Query m mq)) as [vars|]; [|discriminate].
    change (Done (SQL.Query (db (qm (Query m mq))) (query (Query m mq)) vars)
            = Done (Some rows)) in Hfetch.
    injection Hfetch as Hq.
    destruct (Query_statement m mq) as (before & after & Hstmt & Hb & Ha).
    change (SQL.Query (db m) (query (Query m mq)) vars = Some rows) in Hq.
    rewrite Hstmt in Hq. eapply SQL_Query_sorted; eauto.
  - apply eachRow_in_order in Hloop as (converted & -> & Hall). exact Hall.
Qed.

Lemma Query_newest_first_batch :
  exists rows,
    fetch (afterCalls parseImap 1 Examples.inBatchesOf3) = Done (Some rows) /\
    StronglySorted SQL.newer rows /\
    Forall2 (fun row msg =>
               messageOf parseImap (url2path (Examples.store Examples.fiveRows)) row
               = Some msg)
      rows [Examples.at_ "102"; Examples.at_ "105"; Examples.at_ "103"].
Proof.
  apply (Query_newest_first parseImap (Examples.store Examples.fiveRows)
           {| mqMailbox := Examples.inbox; BatchResults := 3 |} 1).
  vm_compute. reflexivity.
Defined.

(** A row that the path map does not know ends the loop with the
    error, whatever was converted before it and whatever follows. *)
Lemma eachRow_unresolved (url_Parse : string -> option ParsedURL)
  (url2path : gmap string string) (pre : list Row) (bad : Row) (post : list Row)
  (acc : list Message) :
  Forall (wellFormed url_Parse) pre ->
  unresolved url_Parse url2path bad ->
  exists rel, eachRow url_Parse url2path (pre ++ bad :: post) acc
              = Done ([], Some (UnmatchedMailboxPath rel))
              /\ url2path !! rel = None.
Proof.
  intros Hpre (rel & Hrel & Hmiss). revert acc.
  induction Hpre as [|row pre [[rel' Hrel'] Hlen] _ IH]; intros acc; simpl.
  - unfold relativePath in Hrel.
    destruct (url bad) as [u|]; [|discriminate]. simpl in Hrel.
    destruct (url_Parse u) as [parsed|]; [|discriminate]. simpl in Hrel.
    injection Hrel as Hrel. rewrite Hrel, Hmiss. eauto.
  - unfold relativePath in Hrel'.
    destruct (url row) as [u|]; [|discriminate]. simpl in Hrel'.
    destruct (url_Parse u) as [parsed|]; [|discriminate]. simpl in Hrel'.
    injection Hrel' as Hrel'. rewrite Hrel'.
    destruct (url2path !! rel') as [basePath|] eqn:Hlook; [|eauto].
    destruct (emlPathFromROWID_long (ROWID row) Hlen) as [shard ->].
    simpl. apply IH.
Qed.

(** A row that the path map does not know converts to no handle. *)
Lemma unresolved_no_message (url_Parse : string -> option ParsedURL)
  (url2path : gmap string string) (row : Row) :
  unresolved url_Parse url2path row -> messageOf url_Parse url2path row = None.
Proof.
  intros (rel & Hrel & Hmiss). unfold messageOf. rewrite Hrel. simpl.
  rewrite Hmiss. reflexivity.
Qed.



Example Query_unresolved_error :
  (call parseImap Examples.everything).1
  = Done ([], Some (UnmatchedMailboxPath "ACC/Sent")).
Proof. vm_compute. reflexivity. Qed.


(** ** The resolver on a marked directory and the folder beside the marker *)

#[local] Arguments String.append !_ _ / : simpl nomatch.

Lemma append_assoc (a b c : string) : (a +:+ b) +:+ c = a +:+ b +:+ c.
Proof. induction a as [|x a IH]; simpl; [reflexivity|]. f_equal. exact IH. Qed.

Lemma append_empty_r (a : string) : a +:+ "" = a.
Proof. induction a as [|x a IH]; simpl; [reflexivity|]. f_equal. exact IH. Qed.

Lemma absolute_app (a b : list string) : absolute (a ++ b) = absolute a +:+ absolute b.
Proof.
  induction a as [|x a IH]; simpl; [reflexivity|].
  rewrite IH, append_assoc. reflexivity.
Qed.

(** *** Elements of a path *)

Lemma elements_name (s : string) : noSlash s = true -> Path.elements s = [s].
Proof.
  induction s as [|c s IH]; simpl; [reflexivity|].
  intros [Hc Hs]%andb_prop. apply negb_true_iff in Hc. rewrite Hc, IH by assumption.
  reflexivity.
Qed.

Lemma elements_slash (s t : string) :
  noSlash s = true -> Path.elements (s +:+ String "/" t) = s :: Path.elements t.
Proof.
  induction s as [|c s IH]; simpl; [reflexivity|].
  intros [Hc Hs]%andb_prop. apply negb_true_iff in Hc. rewrite Hc, IH by assumption.
  reflexivity.
Qed.

Lemma elements_head (x : string) (xs : list string) :
  noSlash x = true -> Forall (fun s => noSlash s = true) xs ->
  Path.elements (x +:+ absolute xs) = x :: xs.
Proof.
  intros Hx Hxs. revert x Hx. induction Hxs as [|y ys Hy _ IH]; intros x Hx; simpl.
  - rewrite append_empty_r. now apply elements_name.
  - rewrite elements_slash by assumption. now rewrite IH.
Qed.

Lemma elements_absolute (xs : list string) :
  Forall (fun s => noSlash s = true) xs ->
  Path.elements (absolute xs) = "" :: xs.
Proof. intros H. apply (elements_head "" xs); auto. Qed.

(** *** Clean *)

Lemma isName_noSlash s : isName s = true -> noSlash s = true.
Proof. unfold isName. intros H. repeat (apply andb_prop in H as [H ?]). assumption. Qed.

Lemma cleanElement_name rooted out s :
  isName s = true -> Path.cleanElement rooted out s = s :: out.
Proof.
  unfold isName, Path.cleanElement. intros H.
  repeat (apply andb_prop in H as [H ?]).
  repeat match goal with H : negb _ = true |- _ => apply negb_true_iff in H; rewrite H end.
  reflexivity.
Qed.

Lemma fold_cleanElement rooted (xs : list string) (out : list string) :
  Forall (fun s => s = "" \/ isName s = true) xs ->
  fold_left (Path.cleanElement rooted) xs out = rev (filter (fun s => kept s = true) xs) ++ out.
Proof.
  intros H. revert out. induction H as [|x xs [->|Hx] _ IH]; intros out; simpl.
  - reflexivity.
  - rewrite IH. reflexivity.
  - rewrite cleanElement_name, IH by assumption.
    rewrite filter_cons_True.
    2:{ unfold kept. unfold isName in Hx. repeat (apply andb_prop in Hx as [Hx ?]). assumption. }
    simpl. rewrite <- app_assoc. reflexivity.
Qed.

Lemma joinSlash_absolute (x : string) (xs : list string) :
  "/" +:+ Path.joinSlash (x :: xs) = absolute (x :: xs).
Proof.
  revert x. induction xs as [|y ys IH]; intros x; simpl.
  - now rewrite append_empty_r.
  - f_equal. f_equal. specialize (IH y). simpl in IH. injection IH as IH.
    simpl. f_equal. exact IH.
Qed.

Lemma Clean_absolute (xs : list string) :
  Forall (fun s => s = "" \/ isName s = true) xs ->
  filter (fun s => kept s = true) xs <> [] ->
  Path.Clean (absolute xs) = absolute (filter (fun s => kept s = true) xs).
Proof.
  intros Hxs Hne. destruct xs as [|x xs]; [contradiction|].
  unfold Path.Clean. change (absolute (x :: xs)) with (String "/" (x +:+ absolute xs)).
  cbv iota. change (Ascii.eqb "/" "/") with true. cbv iota.
  change (String "/" (x +:+ absolute xs)) with (absolute (x :: xs)).
  rewrite elements_absolute.
  2:{ eapply Forall_impl; [exact Hxs|]. intros s [->|Hs]; [reflexivity|now apply isName_noSlash]. }
  rewrite (fold_cleanElement true ("" :: x :: xs) []) by (constructor; auto).
  rewrite app_nil_r, rev_involutive.
  rewrite filter_cons_False by (unfold kept; simpl; congruence).
  destruct (filter _ (x :: xs)) as [|y ys]; [contradiction|].
  apply joinSlash_absolute.
Qed.

(** *** Prefixes and removals *)

Lemma HasPrefix_app (p s : string) : Strings.HasPrefix (p +:+ s) p = true.
Proof.
  induction p as [|c p IH]; simpl; [reflexivity|].
  now rewrite Ascii.eqb_refl.
Qed.

Lemma HasPrefix_noSlash (s old : string) :
  Strings.HasPrefix s old = true -> noSlash s = true -> noSlash old = true.
Proof.
  revert s. induction old as [|p old IH]; intros [|c s]; simpl; try easy.
  destruct (Ascii.eqb_spec c p) as [->|]; [|discriminate].
  intros Hp [Hc Hs]%andb_prop. rewrite Hc. simpl. eauto.
Qed.

Lemma HasPrefix_before_slash (s t N : string) :
  noSlash N = true ->
  Strings.HasPrefix (s +:+ String "/" t) N = Strings.HasPrefix s N.
Proof.
  revert N. induction s as [|c s IH]; intros [|p N]; try reflexivity.
  - intros [Hp _]%andb_prop. apply negb_true_iff in Hp.
    change (Strings.HasPrefix ("" +:+ String "/" t) (String p N))
      with (if Ascii.eqb "/" p then Strings.HasPrefix t N else false).
    rewrite Ascii.eqb_sym, Hp. reflexivity.
  - intros [_ HN]%andb_prop.
    change ((if Ascii.eqb c p then Strings.HasPrefix (s +:+ String "/" t) N else false)
            = (if Ascii.eqb c p then Strings.HasPrefix s N else false)).
    destruct (Ascii.eqb c p); [now apply IH | reflexivity].
Qed.

Lemma noSlash_app (a b : string) : noSlash (a +:+ b) = noSlash a && noSlash b.
Proof.
  induction a as [|c a IH]; simpl; [reflexivity|]. rewrite IH. now rewrite andb_assoc.
Qed.

Lemma length_append (a b : string) :
  String.length (a +:+ b) = (String.length a + String.length b)%nat.
Proof. induction a as [|c a IH]; simpl; [reflexivity|]. now rewrite IH. Qed.

Lemma removeFrom_skip (old a x : string) :
  Strings.removeFrom old (String.length a) (a +:+ x) = Strings.removeFrom old 0 x.
Proof. induction a as [|c a IH]; simpl; [reflexivity | exact IH]. Qed.

Lemma removeFrom_keeps_name (N s t : string) :
  noSlash s = true ->
  Strings.removeFrom (String "/" N) 0 (s +:+ t)
  = s +:+ Strings.removeFrom (String "/" N) 0 t.
Proof.
  induction s as [|c s IH]; [reflexivity|].
  intros [Hc Hs]%andb_prop. apply negb_true_iff in Hc.
  change (String c s +:+ t) with (String c (s +:+ t)).
  change (Strings.removeFrom (String "/" N) 0 (String c (s +:+ t)))
    with (if Strings.HasPrefix (String c (s +:+ t)) (String "/" N)
          then Strings.removeFrom (String "/" N) (String.length (String "/" N) - 1) (s +:+ t)
          else String c (Strings.removeFrom (String "/" N) 0 (s +:+ t))).
  simpl Strings.HasPrefix. rewrite Hc, IH by assumption. reflexivity.
Qed.

Lemma removeFrom_all_kept (old X : string) :
  noSlash X = true -> noSlash old = false ->
  Strings.removeFrom old 0 X = X.
Proof.
  intros HX Hold. induction X as [|c X IH]; [reflexivity|].
  change (Strings.removeFrom old 0 (String c X))
    with (if Strings.HasPrefix (String c X) old
          then Strings.removeFrom old (String.length old - 1) X
          else String c (Strings.removeFrom old 0 X)).
  destruct (Strings.HasPrefix (String c X) old) eqn:E.
  - apply HasPrefix_noSlash in E; [congruence | assumption].
  - simpl in HX. apply andb_prop in HX as [_ HX]. now rewrite IH.
Qed.

Lemma RemoveAll_prefix (root X : string) :
  noSlash root = false -> noSlash X = true ->
  Strings.RemoveAll (root +:+ X) root = X.
Proof.
  intros Hroot HX. destruct root as [|c root]; [discriminate|].
  unfold Strings.RemoveAll.
  change (String c root +:+ X) with (String c (root +:+ X)).
  change (Strings.removeFrom (String c root) 0 (String c (root +:+ X)))
    with (if Strings.HasPrefix (String c root +:+ X) (String c root)
          then Strings.removeFrom (String c root) (String.length (String c root) - 1) (root +:+ X)
          else String c (Strings.removeFrom (String c root) 0 (root +:+ X))).
  rewrite HasPrefix_app.
  replace (String.length (String c root) - 1)%nat with (String.length root)
    by (simpl; lia).
  rewrite removeFrom_skip. now apply removeFrom_all_kept.
Qed.

Lemma absolute_then_slash (xs : list string) (N : string) :
  exists r, absolute xs +:+ String "/" N = String "/" r.
Proof. destruct xs; simpl; eauto. Qed.

Lemma RemoveAll_last_element (names : list string) (N : string) :
  Forall (fun s => noSlash s = true) names ->
  Forall (fun s => Strings.HasPrefix s N = false) names ->
  noSlash N = true ->
  Strings.RemoveAll (absolute names +:+ "/" +:+ N) ("/" +:+ N) = absolute names.
Proof.
  intros Hnames Hpre HN. unfold Strings.RemoveAll.
  change ("/" +:+ N) with (String "/" N).
  induction names as [|x xs IH].
  - change (absolute [] +:+ String "/" N) with (String "/" N).
    change (Strings.removeFrom (String "/" N) 0 (String "/" N))
      with (if Strings.HasPrefix (String "/" N) (String "/" N)
            then Strings.removeFrom (String "/" N) (String.length (String "/" N) - 1) N
            else String "/" (Strings.removeFrom (String "/" N) 0 N)).
    rewrite <- (append_empty_r (String "/" N)) at 1. rewrite HasPrefix_app.
    replace (String.length (String "/" N) - 1)%nat with (String.length N)
      by (simpl; lia).
    rewrite <- (append_empty_r N) at 3. apply removeFrom_skip.
  - inversion Hnames as [|? ? Hx Hxs]; subst. inversion Hpre as [|? ? Px Pxs]; subst.
    specialize (IH Hxs Pxs).
    change (absolute (x :: xs)) with (String "/" (x +:+ absolute xs)).
    change (String "/" (x +:+ absolute xs) +:+ String "/" N)
      with (String "/" ((x +:+ absolute xs) +:+ String "/" N)).
    rewrite append_assoc.
    set (rest := absolute xs +:+ String "/" N) in *.
    change (Strings.removeFrom (String "/" N) 0 (String "/" (x +:+ rest)))
      with (if Strings.HasPrefix (String "/" (x +:+ rest)) (String "/" N)
            then Strings.removeFrom (String "/" N) (String.length (String "/" N) - 1) (x +:+ rest)
            else String "/" (Strings.removeFrom (String "/" N) 0 (x +:+ rest))).
    assert (Strings.HasPrefix (String "/" (x +:+ rest)) (String "/" N) = false) as ->.
    { simpl. destruct (absolute_then_slash xs N) as [r Hr]. unfold rest. rewrite Hr.
      now rewrite HasPrefix_before_slash. }
    rewrite removeFrom_keeps_name by assumption. now rewrite IH.
Qed.

(** *** The walk *)

Lemma walkEntries_files (root path : string) (files rest : list (string * Node)) (st : Gathered) :
  Forall (fun e => e.2 = File) files ->
  Walk.walkEntries (Walk.walkDir (visit root)) path (files ++ rest) st
  = Walk.walkEntries (Walk.walkDir (visit root)) path rest st.
Proof.
  induction 1 as [|[name d] files Hd _ IH]; [reflexivity|].
  simpl in Hd. subst d. simpl. exact IH.
Qed.

Lemma walkDir_Data (root path : string) (inner : Node) (st : Gathered) :
  Walk.walkDir (visit root) path "Data" inner st = (None, st).
Proof. destruct inner; reflexivity. Qed.

Lemma eqb_length (a b : string) :
  String.length a <> String.length b -> String.eqb a b = false.
Proof. intros H. apply String.eqb_neq. intros ->. now apply H. Qed.

Lemma mbox_isName (Y : string) : noSlash Y = true -> isName (Y +:+ ".mbox") = true.
Proof.
  intros HY. unfold isName. rewrite noSlash_app, HY.
  rewrite !eqb_length by (rewrite length_append; simpl; lia). reflexivity.
Qed.

Lemma mbox_not_reserved (Y : string) :
  bool_decide (Y +:+ ".mbox" = "Data") || bool_decide (Y +:+ ".mbox" = "MailData") = false.
Proof.
  apply orb_false_intro; apply bool_decide_eq_false_2; intros H.
  - apply (f_equal String.length) in H. rewrite length_append in H. simpl in H. lia.
  - destruct Y as [|a [|b [|c [|d Y]]]]; try discriminate H.
    apply (f_equal String.length) in H. simpl in H. rewrite length_append in H.
    simpl in H. lia.
Qed.

Lemma visit_dir (root path name : string) (es : list (string * Node)) (st : Gathered) :
  bool_decide (name = "Data") || bool_decide (name = "MailData") = false ->
  visit root path name (Dir es) None st
  = (None,
     {| paths := set_fold (matchMarked root path name) (paths st) (mboxPaths st);
        mboxPaths := if bool_decide ("Info.plist" ∈ es.*1)
                     then {[path]} ∪ mboxPaths st else mboxPaths st |}).
Proof.
  intros Hname. unfold visit. simpl IsDir. cbv iota. rewrite Hname.
  unfold statEntry. destruct (bool_decide ("Info.plist" ∈ es.*1)); reflexivity.
Qed.

Lemma walkDir_Dir_eq {St} (fn : string -> string -> Node -> option OSError -> St
                                 -> option WalkError * St)
  (path name : string) (es : list (string * Node)) (st : St) :
  Walk.walkDir fn path name (Dir es) st
  = match fn path name (Dir es) None st with
    | (Some e, st1) => Walk.afterCall (Dir es) (Some e, st1)
    | (None, st1) => Walk.walkEntries (Walk.walkDir fn) path es st1
    end.
Proof. reflexivity. Qed.

Lemma walkDir_dir (root path name : string) (es : list (string * Node)) (st : Gathered) :
  bool_decide (name = "Data") || bool_decide (name = "MailData") = false ->
  Walk.walkDir (visit root) path name (Dir es) st
  = Walk.walkEntries (Walk.walkDir (visit root)) path es
      {| paths := set_fold (matchMarked root path name) (paths st) (mboxPaths st);
         mboxPaths := if bool_decide ("Info.plist" ∈ es.*1)
                      then {[path]} ∪ mboxPaths st else mboxPaths st |}.
Proof.
  intros Hname. rewrite walkDir_Dir_eq, visit_dir by assumption. reflexivity.
Qed.

Lemma isName_kept (s : string) : isName s = true -> kept s = true.
Proof.
  unfold isName, kept. intros H. repeat (apply andb_prop in H as [H ?]). exact H.
Qed.

Lemma filter_kept_names (l : list string) :
  Forall (fun s => isName s = true) l -> filter (fun s => kept s = true) l = l.
Proof.
  induction 1 as [|s ss Hs _ IH]; [reflexivity|].
  rewrite filter_cons_True by now apply isName_kept. now rewrite IH.
Qed.

Lemma filter_nonempty_names (l : list string) :
  Forall (fun s => isName s = true) l ->
  filter (fun e => negb (String.eqb e "")) l = l.
Proof.
  induction 1 as [|s ss Hs _ IH]; [reflexivity|].
  rewrite filter_cons_True, IH; [reflexivity|].
  apply isName_kept in Hs. exact (Is_true_true_2 _ Hs).
Qed.

Lemma Join_absolute (names : list string) (name : string) :
  Forall (fun s => isName s = true) names -> names <> [] -> isName name = true ->
  Path.Join [absolute names; name] = absolute (names ++ [name]).
Proof.
  intros Hnames Hne Hname. unfold Path.Join.
  assert (String.eqb (absolute names) "" = false) as Hroot.
  { destruct names; [contradiction|]. reflexivity. }
  assert (String.eqb name "" = false) as Hn.
  { apply isName_kept in Hname. unfold kept in Hname. now apply negb_true_iff in Hname. }
  rewrite filter_cons_True by (rewrite Hroot; exact I).
  rewrite filter_cons_True by (rewrite Hn; exact I).
  rewrite filter_nil. simpl Path.joinSlash.
  replace (absolute names +:+ String "/" name) with (absolute (names ++ [name]))
    by (rewrite absolute_app; simpl; now rewrite append_empty_r).
  assert (Forall (fun s => isName s = true) (names ++ [name])) as Hall
    by (apply Forall_app; split; [assumption | now constructor]).
  rewrite Clean_absolute.
  - now rewrite filter_kept_names.
  - eapply Forall_impl; [exact Hall|]. auto.
  - rewrite filter_kept_names by assumption. destruct names; discriminate.
Qed.

Lemma absolute_snoc (l : list string) (x : string) :
  absolute (l ++ [x]) = absolute l +:+ "/" +:+ x.
Proof. rewrite absolute_app. simpl. now rewrite append_empty_r. Qed.

Lemma walkEntries_nil {St} (walk : string -> string -> Node -> St -> option WalkError * St)
  (path : string) (st : St) :
  Walk.walkEntries walk path [] st = (None, st).
Proof. reflexivity. Qed.

Lemma walkEntries_cons {St} (walk : string -> string -> Node -> St -> option WalkError * St)
  (path name : string) (d : Node) (ds : list (string * Node)) (st : St) :
  Walk.walkEntries walk path ((name, d) :: ds) st
  = match walk (Path.Join [path; name]) name d st with
    | (Some SkipDir, st') => (None, st')
    | (Some (Failed e), st') => (Some (Failed e), st')
    | (None, st') => Walk.walkEntries walk path ds st'
    end.
Proof. reflexivity. Qed.

Section SiblingFolder.
Variables (hsegs : list string) (X Y : string).
Variables (pre post : list (string * Node)) (inner : Node).

Local Abbreviation home := (absolute hsegs).
Local Abbreviation N := (Y +:+ ".mbox").
Local Abbreviation names0 := (hsegs ++ ["Library"; "Mail"; "V10"]).

Hypothesis home_names : Forall (fun s => isName s = true) hsegs.
Hypothesis X_name : isName X = true.
Hypothesis Y_name : noSlash Y = true.
Hypothesis X_walked : bool_decide (X = "Data") || bool_decide (X = "MailData") = false.
Hypothesis X_no_marker : String.eqb X "Info.plist" = false.

Lemma names0_names : Forall (fun s => s = "" \/ isName s = true) names0.
Proof.
  apply Forall_app. split.
  - eapply Forall_impl; [exact home_names|]. auto.
  - constructor; [now right|]. constructor; [now right|].
    constructor; [now right|]. constructor.
Qed.

Lemma names0_kept : filter (fun s => kept s = true) names0 = names0.
Proof.
  rewrite filter_app, filter_kept_names by exact home_names. reflexivity.
Qed.

Lemma mailRoot_absolute : mailRoot home = absolute (names0 ++ [""]).
Proof. unfold mailRoot. rewrite !absolute_app, append_assoc. reflexivity. Qed.

Lemma mailRoot_entry (name : string) :
  isName name = true ->
  Path.Join [mailRoot home; name] = absolute (names0 ++ [name]).
Proof.
  intros Hname. unfold Path.Join.
  assert (String.eqb (mailRoot home) "" = false) as Hroot.
  { apply eqb_length. unfold mailRoot. rewrite length_append. simpl. lia. }
  assert (String.eqb name "" = false) as Hne.
  { unfold isName in Hname. repeat (apply andb_prop in Hname as [Hname ?]).
    now apply negb_true_iff in Hname. }
  rewrite filter_cons_True by (rewrite Hroot; exact I).
  rewrite filter_cons_True by (rewrite Hne; exact I).
  rewrite filter_nil. simpl Path.joinSlash.
  rewrite mailRoot_absolute.
  replace (absolute (names0 ++ [""]) +:+ String "/" name)
    with (absolute ((names0 ++ [""]) ++ [name]))
    by (rewrite (absolute_app (names0 ++ [""])); simpl; now rewrite append_empty_r).
  rewrite <- app_assoc. simpl app.
  assert (filter (fun s => kept s = true) (names0 ++ [""; name]) = names0 ++ [name]) as Hkept.
  { rewrite filter_app, names0_kept. f_equal.
    rewrite filter_cons_False by (unfold kept; simpl; congruence).
    rewrite filter_cons_True by now apply isName_kept. reflexivity. }
  rewrite Clean_absolute.
  - now rewrite Hkept.
  - apply Forall_app. split; [apply names0_names|].
    constructor; [now left|]. constructor; [now right|]. constructor.
  - rewrite Hkept. destruct hsegs; discriminate.
Qed.

Lemma mailRoot_baseName : Walk.baseName (mailRoot home) = "V10".
Proof.
  unfold Walk.baseName. rewrite mailRoot_absolute, elements_absolute.
  2:{ apply Forall_app. split; [|now constructor].
      eapply Forall_impl; [exact names0_names|].
      intros s [->|Hs]; [reflexivity | now apply isName_noSlash]. }
  assert (filter (fun e => negb (String.eqb e "")) ("" :: names0 ++ [""]) = names0) as ->.
  { rewrite filter_cons_False by (simpl; auto).
    rewrite filter_app, filter_cons_False, filter_nil, app_nil_r by (simpl; auto).
    apply filter_nonempty_names. apply Forall_app. split; [exact home_names|].
    repeat constructor. }
  replace names0 with ((hsegs ++ ["Library"; "Mail"]) ++ ["V10"])
    by (now rewrite <- app_assoc).
  destruct ((hsegs ++ ["Library"; "Mail"]) ++ ["V10"]) eqn:E.
  - destruct hsegs; discriminate.
  - rewrite <- E. apply last_last.
Qed.

End SiblingFolder.


(** A marked directory that is itself named [.mbox] loses the
    extension in its key and keeps it in the recorded path. *)
Example gatherMboxPaths_strips_key_only :
  gatherMboxPaths Examples.home
    (inl (mailboxTree "Archive.mbox" "A1.mbox" [("Info.plist", File)] [] File))
  = ({[ "Archive" := "/Users/u/Library/Mail/V10/Archive.mbox/A1.mbox/Data" ]}, None).
Proof. vm_compute. reflexivity. Qed.

(** ** The framing, whatever follows the first line *)

Lemma take_length_take {A} (n : nat) (l : list A) :
  take (length (take n l)) l = take n l.
Proof.
  rewrite length_take. destruct (Nat.min_spec n (length l)) as [[? ->]|[? ->]];
    [reflexivity|]. rewrite !take_ge by lia. reflexivity.
Qed.

(** Reads through a limited reader deliver the bytes of the stream
    from its position on, as far as the limit and the stream go. *)
Lemma reads_limited_prefix (pre rest : list byte) (sizes : list Z) (k : nat) (limit : Z) :
  (k <= length rest)%nat ->
  IO.reads
    (IO.Limited {| IO.R := {| content := pre ++ rest; pos := len pre + Z.of_nat k |};
                   IO.N := limit |}) sizes
  = take (total sizes) (take (Z.to_nat limit) (drop k rest)).
Proof.
  revert k limit. induction sizes as [|n sizes IH]; intros k limit Hk; simpl.
  - reflexivity.
  - unfold IO.LimitedRead. simpl.
    destruct (Z.leb_spec limit 0) as [Hend|Hmore].
    { replace (Z.to_nat limit) with 0%nat by lia. now rewrite take_0, take_nil. }
    set (n' := if limit <? n then limit else n).
    unfold IO.Read. simpl.
    destruct (Z.leb_spec n' 0) as [Hn'|Hn'].
    { simpl. change (len []) with 0. rewrite Z.sub_0_r. rewrite IH by assumption.
      replace (Z.to_nat n) with 0%nat; [reflexivity|].
      unfold n' in Hn'. destruct (Z.ltb_spec limit n); lia. }
    replace (Z.to_nat (len pre + Z.of_nat k)) with (length pre + k)%nat
      by (unfold len; lia).
    rewrite <- drop_drop, drop_app_length.
    set (D := drop k rest).
    destruct (take (Z.to_nat n') D) as [|x got] eqn:E.
    { assert (D = []) as ->; [|now rewrite !take_nil].
      destruct D; [reflexivity|]. destruct (Z.to_nat n') eqn:E'; [lia|discriminate]. }
    simpl. rewrite app_comm_cons, <- E.
    set (got' := take (Z.to_nat n') D).
    replace (len pre + Z.of_nat k + len got') with (len pre + Z.of_nat (k + length got'))
      by (unfold len; lia).
    rewrite IH.
    2:{ unfold got', D. rewrite length_take, length_drop. lia. }
    rewrite <- drop_drop. fold D.
    rewrite !take_take.
    assert (length got' = Nat.min (Z.to_nat n') (length D)) as Hg
      by apply length_take.
    replace got' with (take (length got') D) at 1 by apply take_length_take.
    rewrite take_take_drop.
    destruct (Nat.le_gt_cases (Z.to_nat n') (length D)).
    + f_equal. unfold n', len in *. destruct (Z.ltb_spec limit n); lia.
    + rewrite !take_ge; [reflexivity| |]; unfold n', len in *;
        destruct (Z.ltb_spec limit n); lia.
Qed.

Lemma total_replicate (k : nat) : total (replicate k 512) = (k * 512)%nat.
Proof. induction k as [|k IH]; simpl; [reflexivity|]. rewrite IH. lia. Qed.

(** The reader [stripEmlx] returns for a stream that starts with a
    line holding an integer. *)
Lemma stripEmlx_line (line rest : list byte) (n : Z) :
  LF ∉ line ->
  len line < MaxScanTokenSize ->
  Strconv.Atoi (String.string_of_list_byte (Bytes.Trim line SP)) = inl n ->
  stripEmlx {| content := line ++ LF :: rest; pos := 0 |}
  = (Some (IO.Limited {| IO.R := {| content := line ++ LF :: rest; pos := len line + 1 |};
                         IO.N := n |}), None).
Proof.
  intros Hline Hshort Hn. unfold stripEmlx.
  destruct (ScanFirst_line line rest Hline Hshort) as (r1 & Hscan & Hr1).
  rewrite Hscan, (Atoi_dropCR line n Hn), Hn.
  unfold IO.SeekStart. rewrite Hr1. reflexivity.
Qed.

Lemma reads_after_line (line rest : list byte) (n : Z) (sizes : list Z) :
  IO.reads (IO.Limited {| IO.R := {| content := line ++ LF :: rest; pos := len line + 1 |};
                          IO.N := n |}) sizes
  = take (total sizes) (take (Z.to_nat n) rest).
Proof.
  pose proof (reads_limited_prefix (line ++ [LF]) rest sizes 0 n) as H.
  rewrite len_app, Z.add_0_r, <- app_assoc in H. simpl in H.
  change (len [LF]) with 1 in H. apply H. lia.
Qed.

Lemma ReadAll_after_line (line rest : list byte) (n : Z) :
  IO.ReadAll (IO.Limited {| IO.R := {| content := line ++ LF :: rest; pos := len line + 1 |};
                            IO.N := n |})
  = take (Z.to_nat n) rest.
Proof.
  unfold IO.ReadAll. rewrite reads_after_line. apply take_ge.
  rewrite total_replicate, length_take. simpl. rewrite length_app. simpl. lia.
Qed.

(** X1: whatever follows a first line that holds an integer [n], the
    reader that [stripEmlx] returns yields the first [n] bytes of it:
    all of it when fewer than [n] bytes follow, with no error for the
    bytes that are missing, and nothing when [n] is zero or
    negative. Reads of any sizes deliver a prefix of those bytes. *)
Theorem stripEmlx_reads_what_follows (line rest : list byte) (n : Z) :
  LF ∉ line ->
  len line < MaxScanTokenSize ->
  Strconv.Atoi (String.string_of_list_byte (Bytes.Trim line SP)) = inl n ->
  exists rd,
    stripEmlx {| content := line ++ LF :: rest; pos := 0 |} = (Some rd, None) /\
    IO.ReadAll rd = take (Z.to_nat n) rest /\
    forall sizes, IO.reads rd sizes = take (total sizes) (take (Z.to_nat n) rest).
Proof.
  intros Hline Hshort Hn. eexists. split; [apply stripEmlx_line; eassumption|].
  split; [apply ReadAll_after_line | apply reads_after_line].
Qed.

(** a file cut off after three of its 120 bytes *)
Lemma stripEmlx_truncated_file :
  exists rd,
    stripEmlx {| content := bytes "120" ++ LF :: bytes "abc"; pos := 0 |} = (Some rd, None) /\
    IO.ReadAll rd = take (Z.to_nat 120) (bytes "abc") /\
    forall sizes, IO.reads rd sizes = take (total sizes) (take (Z.to_nat 120) (bytes "abc")).
Proof.
  apply (stripEmlx_reads_what_follows (bytes "120") (bytes "abc") 120).
  - refine (bool_decide_unpack _ _). vm_compute. exact I.
  - vm_compute. reflexivity.
  - vm_compute. reflexivity.
Defined.

Lemma scanLoop_eq (fuel : nat) (s : Scanner) :
  scanLoop (S fuel) s
  = let token :=
      if (0 <? len (buf s)) || bool_decide (is_Some (err s))
      then (ScanLines (buf s) (bool_decide (is_Some (err s)))).2
      else None in
    match token with
    | Some tok => Some (Some tok, s)
    | None =>
        if bool_decide (is_Some (err s)) then Some (None, s)
        else if len (buf s) =? cap s then
          if MaxScanTokenSize <=? cap s then
            Some (None, {| src := src s; buf := buf s; cap := cap s;
                           err := Some ErrTooLong |})
          else
            let newSize := if cap s * 2 =? 0 then startBufSize else cap s * 2 in
            scanLoop fuel
              (fill {| src := src s; buf := buf s;
                       cap := Z.min newSize MaxScanTokenSize;
                       err := err s |})
        else scanLoop fuel (fill s)
    end.
Proof. reflexivity. Qed.

(** X2: on a stream with nothing left to read, an empty file or one
    that has been read to its end, [stripEmlx] reports that it found
    no first line and hands the stream back as it is. *)
Theorem stripEmlx_nothing_to_read (r : ReadSeeker) :
  drop (Z.to_nat (pos r)) (content r) = [] ->
  stripEmlx r = (Some (IO.Raw r), Some NoFirstLine).
Proof.
  intros Hend. unfold stripEmlx, ScanFirst, scanFuel.
  assert (fill {| src := r; buf := []; cap := 4096; err := None |}
          = {| src := r; buf := []; cap := 4096; err := Some EOF |}) as Hfill.
  { unfold fill, IO.Read. cbn [src buf cap err]. change (len []) with 0.
    change (4096 - 0 <=? 0) with false. cbv iota. rewrite Hend. reflexivity. }
  rewrite scanLoop_eq. unfold NewScanner. cbn [src buf cap err].
  change (len []) with 0.
  rewrite bool_decide_eq_false_2 by (intros [? ?]; discriminate).
  change (0 <? 0) with false. cbn [orb]. cbv zeta iota.
  change (0 =? 0) with true. change (MaxScanTokenSize <=? 0) with false.
  change (0 * 2 =? 0) with true. cbv iota.
  change (Z.min startBufSize MaxScanTokenSize) with 4096.
  rewrite Hfill, scanLoop_eq. cbn [src buf cap err].
  rewrite bool_decide_eq_true_2 by eauto.
  rewrite orb_true_r. cbv zeta. reflexivity.
Qed.

(** a file that has been read to its end *)
Lemma stripEmlx_consumed_stream :
  stripEmlx {| content := bytes "3" ++ LF :: bytes "abc"; pos := 5 |}
  = (Some (IO.Raw {| content := bytes "3" ++ LF :: bytes "abc"; pos := 5 |}),
     Some NoFirstLine).
Proof.
  apply (stripEmlx_nothing_to_read {| content := bytes "3" ++ LF :: bytes "abc"; pos := 5 |}).
  reflexivity.
Defined.

Lemma dropCR_CR (line : list byte) : dropCR (line ++ [CR]) = line.
Proof.
  unfold dropCR. rewrite rev_app_distr. cbn [rev app].
  rewrite bool_decide_eq_true_2 by reflexivity. apply rev_involutive.
Qed.

(** X5: when the first line ends with a carriage return and a line
    feed, the scanner drops the carriage return from the line and the
    offset [len(original)+1] is the one of the line feed: the reader
    yields the line feed and then the message, [n] bytes in all, so
    the last byte of a message of [n] bytes is not delivered. *)
Theorem stripEmlx_CRLF_starts_at_LF (line rest : list byte) (n : Z) :
  LF ∉ line ->
  len line + 1 < MaxScanTokenSize ->
  Strconv.Atoi (String.string_of_list_byte (Bytes.Trim line SP)) = inl n ->
  exists rd,
    stripEmlx {| content := line ++ CR :: LF :: rest; pos := 0 |} = (Some rd, None) /\
    IO.ReadAll rd = take (Z.to_nat n) (LF :: rest).
Proof.
  intros Hline Hshort Hn.
  destruct (ScanFirst_line (line ++ [CR]) rest) as (r1 & Hscan & Hr1).
  { intros [H|H]%elem_of_app; [now apply Hline|].
    apply elem_of_cons in H as [H|H]; [discriminate | now apply elem_of_nil in H]. }
  { rewrite len_app. exact Hshort. }
  rewrite dropCR_CR, <- app_assoc in Hscan. rewrite <- app_assoc in Hr1.
  cbn [app] in Hscan, Hr1.
  exists (IO.Limited {| IO.R := {| content := line ++ CR :: LF :: rest; pos := len line + 1 |};
                        IO.N := n |}).
  split.
  - unfold stripEmlx. rewrite Hscan, Hn. unfold IO.SeekStart. rewrite Hr1. reflexivity.
  - unfold IO.ReadAll.
    pose proof (reads_limited_prefix (line ++ [CR]) (LF :: rest)
                  (replicate (S (length (line ++ CR :: LF :: rest))) 512) 0 n) as H.
    rewrite len_app, Z.add_0_r, <- app_assoc in H. cbn [app drop] in H.
    change (len [CR]) with 1 in H. cbn [IO.underlying IO.R content].
    rewrite H by (simpl; lia). apply take_ge.
    rewrite total_replicate, length_take. rewrite length_app. simpl. lia.
Qed.

(** the line [3] ended by a carriage return and a line feed *)
Lemma stripEmlx_CRLF_3 :
  exists rd,
    stripEmlx {| content := bytes "3" ++ CR :: LF :: bytes "abcXYZ"; pos := 0 |}
    = (Some rd, None) /\
    IO.ReadAll rd = take (Z.to_nat 3) (LF :: bytes "abcXYZ").
Proof.
  apply (stripEmlx_CRLF_starts_at_LF (bytes "3") (bytes "abcXYZ") 3).
  - refine (bool_decide_unpack _ _). vm_compute. exact I.
  - vm_compute. reflexivity.
  - vm_compute. reflexivity.
Defined.

(** a first line of 64 KiB of spaces *)
Lemma stripEmlx_line_of_64KiB :
  stripEmlx {| content := replicate (Z.to_nat Bufio.MaxScanTokenSize) SP ++ LF :: bytes "abc";
               pos := 0 |}
  = (Some (IO.Raw {| content := replicate (Z.to_nat Bufio.MaxScanTokenSize) SP
                                ++ LF :: bytes "abc";
                     pos := Bufio.MaxScanTokenSize |}), Some NoFirstLine).
Proof.
  apply (stripEmlx_line_too_long
           (replicate (Z.to_nat Bufio.MaxScanTokenSize) SP ++ LF :: bytes "abc")).
  - vm_compute. discriminate.
  - refine (bool_decide_unpack _ _). vm_compute. exact I.
Defined.

(** ** From a row to its file *)

(** X6: [Open] followed by reading to the end. When the file with
    [.emlx] exists, or it does not exist and the one with
    [.partial.emlx] does, and that file starts with a line holding
    the length [n], [Open] returns a reader and no error, and the
    reader yields the [n] bytes after the line. *)
Theorem Open_reads_first_existing (files : gmap string (list byte + OSError))
  (m : Message) (line rest : list byte) (n : Z) :
  let name1 := Path.Join [pathWithoutExtension m +:+ ".emlx"] in
  let name2 := Path.Join [pathWithoutExtension m +:+ ".partial.emlx"] in
  files !! name1 = Some (inl (line ++ LF :: rest))
  \/ (files !! name1 = None /\ files !! name2 = Some (inl (line ++ LF :: rest))) ->
  LF ∉ line ->
  len line < MaxScanTokenSize ->
  Strconv.Atoi (String.string_of_list_byte (Bytes.Trim line SP)) = inl n ->
  exists rd, (Open files m).2 = (Some rd, None) /\ IO.ReadAll rd = take (Z.to_nat n) rest.
Proof.
  intros name1 name2 Hfile Hline Hshort Hn.
  exists (IO.Limited {| IO.R := {| content := line ++ LF :: rest; pos := len line + 1 |};
                        IO.N := n |}).
  split; [|apply ReadAll_after_line].
  unfold Open, osOpen. fold name1 name2.
  destruct Hfile as [-> | [-> ->]]; simpl; now apply stripEmlx_line.
Qed.

(** a message of which the partial download is there alone *)
Lemma Open_partial_download :
  exists rd,
    (Open {[ "/m/1/2/3/Messages/321.partial.emlx" := inl (bytes "3" ++ LF :: bytes "abcXYZ") ]}
          {| pathWithoutExtension := "/m/1/2/3/Messages/321" |}).2 = (Some rd, None)
    /\ IO.ReadAll rd = take (Z.to_nat 3) (bytes "abcXYZ").
Proof.
  apply (Open_reads_first_existing _ {| pathWithoutExtension := "/m/1/2/3/Messages/321" |}
           (bytes "3") (bytes "abcXYZ") 3).
  - right. split; vm_compute; reflexivity.
  - refine (bool_decide_unpack _ _). vm_compute. exact I.
  - vm_compute. reflexivity.
  - vm_compute. reflexivity.
Defined.

(** *** The shard path of an identifier is its own *)

Lemma string_of_byte_cases (c : ascii) :
  Strings.string_of_byte c = String c ""
  \/ exists x y, Strings.string_of_byte c = String x (String y "") /\ y <> "/"%char.
Proof.
  unfold Strings.string_of_byte. destruct (nat_of_ascii c <? 128)%nat; [now left|].
  right. eexists _, _. split; [reflexivity|].
  intros H. apply (f_equal nat_of_ascii) in H.
  rewrite nat_ascii_embedding in H.
  - change (nat_of_ascii "/") with 47%nat in H. lia.
  - pose proof (Nat.mod_upper_bound (nat_of_ascii c) 64). lia.
Qed.

Lemma string_of_byte_cancel (c c' : ascii) (s s' : string) :
  Strings.string_of_byte c +:+ String "/" s = Strings.string_of_byte c' +:+ String "/" s' ->
  s = s'.
Proof.
  destruct (string_of_byte_cases c) as [->|(x & y & -> & Hy)],
           (string_of_byte_cases c') as [->|(x' & y' & -> & Hy')]; simpl; intros H.
  - now injection H.
  - injection H as _ H _. now subst y'.
  - injection H as _ H _. now subst y.
  - now injection H.
Qed.

(** X7: distinct identifiers have distinct shard paths: another
    identifier gives the outcome of an identifier of at least three
    bytes only if it is the same identifier, whatever bytes the two
    are made of. *)
Theorem emlPathFromROWID_injective (a b : string) :
  (3 <= String.length a)%nat ->
  emlPathFromROWID a = emlPathFromROWID b <-> a = b.
Proof.
  intros Hlen. split; [|now intros ->].
  destruct (emlPathFromROWID_long a Hlen) as [p Hp]. rewrite Hp. intros Hb.
  symmetry in Hb. revert Hp Hb.
  unfold emlPathFromROWID, Strings.index.
  destruct (String.get 2 a) as [a2|]; [|discriminate].
  destruct (String.get 1 a) as [a1|]; [|discriminate].
  destruct (String.get 0 a) as [a0|]; [|discriminate].
  destruct (String.get 2 b) as [b2|]; [|discriminate].
  destruct (String.get 1 b) as [b1|]; [|discriminate].
  destruct (String.get 0 b) as [b0|]; [|discriminate].
  simpl. intros [= <-] [= H]. symmetry in H.
  apply string_of_byte_cancel in H. apply string_of_byte_cancel in H.
  change ("/Messages/" +:+ a) with (String "/" ("Messages/" +:+ a)) in H.
  change ("/Messages/" +:+ b) with (String "/" ("Messages/" +:+ b)) in H.
  apply string_of_byte_cancel in H. simpl in H. now injection H.
Qed.

(** a leading zero makes another path *)
Lemma emlPathFromROWID_leading_zero_differs :
  emlPathFromROWID "0447630" = emlPathFromROWID "447630" <-> "0447630" = "447630".
Proof. apply (emlPathFromROWID_injective "0447630" "447630"). simpl. lia. Defined.

Lemma digit_not_special (c : ascii) (d : Z) :
  Strconv.digit c = Some d -> Ascii.eqb c "/" = false /\ Ascii.eqb c "." = false.
Proof.
  unfold Strconv.digit. intros H.
  destruct (Z.leb_spec 48 (Z.of_nat (nat_of_ascii c))) as [Hle|]; [|discriminate].
  split; apply Ascii.eqb_neq; intros ->; vm_compute in Hle; now apply Hle.
Qed.

Lemma numeral_noSlash (s : string) : numeral s = true -> noSlash s = true.
Proof.
  induction s as [|c s IH]; simpl; [reflexivity|].
  destruct (Strconv.digit c) as [d|] eqn:E; [|discriminate].
  intros H. apply digit_not_special in E as [-> _]. now rewrite IH.
Qed.

Lemma numeral_isName (s : string) : numeral s = true -> s <> "" -> isName s = true.
Proof.
  intros H Hne. unfold isName. rewrite (numeral_noSlash s H).
  destruct s as [|c s]; [contradiction|]. simpl in H.
  destruct (Strconv.digit c) as [d|] eqn:E; [|discriminate].
  apply digit_not_special in E as [_ E]. simpl. rewrite E. reflexivity.
Qed.

Lemma digit_isASCII (c : ascii) (d : Z) : Strconv.digit c = Some d -> isASCII c = true.
Proof.
  unfold Strconv.digit, isASCII. intros H.
  destruct (Z.leb_spec 48 (Z.of_nat (nat_of_ascii c))); [|discriminate].
  destruct (Z.leb_spec (Z.of_nat (nat_of_ascii c)) 57); [|discriminate].
  apply Nat.ltb_lt. lia.
Qed.

Lemma suffixed_isName (s ext : string) :
  noSlash s = true -> noSlash ext = true -> (3 <= String.length ext)%nat ->
  isName (s +:+ ext) = true.
Proof.
  intros Hs Hext Hlen. unfold isName. rewrite noSlash_app, Hs, Hext.
  rewrite !eqb_length by (rewrite length_append; simpl; lia). reflexivity.
Qed.

Lemma Clean_names (names : list string) :
  Forall (fun s => isName s = true) names -> names <> [] ->
  Path.Clean (absolute names) = absolute names.
Proof.
  intros Hall Hne. rewrite Clean_absolute.
  - now rewrite filter_kept_names.
  - eapply Forall_impl; [exact Hall|]. auto.
  - now rewrite filter_kept_names.
Qed.

(** the shard of a numeral *)
Lemma emlPathFromROWID_numeral (c0 c1 c2 : ascii) (rest : string) :
  numeral (String c0 (String c1 (String c2 rest))) = true ->
  emlPathFromROWID (String c0 (String c1 (String c2 rest)))
  = Done (String c2 ("/" +:+ String c1 ("/" +:+ String c0
            ("/Messages/" +:+ String c0 (String c1 (String c2 rest)))))).
Proof.
  simpl. destruct (Strconv.digit c0) eqn:E0; [|discriminate].
  destruct (Strconv.digit c1) eqn:E1; [|discriminate].
  destruct (Strconv.digit c2) eqn:E2; [|discriminate]. intros _.
  unfold emlPathFromROWID, Strings.index. simpl.
  rewrite !string_of_byte_ascii by (eapply digit_isASCII; eassumption).
  reflexivity.
Qed.

Section Layout.
Variables (names : list string) (c0 c1 c2 : ascii) (rest : string).
Local Abbreviation ident := (String c0 (String c1 (String c2 rest))).
Local Abbreviation folders := (names ++ [String c2 ""; String c1 ""; String c0 ""; "Messages"]).
Hypothesis base_clean : Forall (fun s => isName s = true) names.
Hypothesis base_rooted : names <> [].
Hypothesis id_numeral : numeral ident = true.

Lemma folders_names : Forall (fun s => isName s = true) folders.
Proof.
  pose proof id_numeral as H. simpl in H.
  destruct (Strconv.digit c0) eqn:E0; [|discriminate].
  destruct (Strconv.digit c1) eqn:E1; [|discriminate].
  destruct (Strconv.digit c2) eqn:E2; [|discriminate].
  apply Forall_app. split; [exact base_clean|].
  assert (forall c d, Strconv.digit c = Some d -> isName (String c "") = true) as Hd.
  { intros c d Hc. apply numeral_isName; [|discriminate]. simpl. now rewrite Hc. }
  repeat constructor; eapply Hd; eassumption.
Qed.

Lemma Join_shard (shard : string) :
  emlPathFromROWID ident = Done shard ->
  Path.Join [absolute names; shard] = absolute (folders ++ [ident]).
Proof.
  rewrite emlPathFromROWID_numeral by exact id_numeral. intros [= <-].
  unfold Path.Join.
  rewrite filter_cons_True.
  2:{ destruct names; [contradiction|]. exact I. }
  rewrite filter_cons_True by exact I.
  rewrite filter_nil. cbn [Path.joinSlash].
  match goal with |- Path.Clean ?p = _ =>
    replace p with (absolute (folders ++ [ident])) end.
  - apply Clean_names.
    + apply Forall_app. split; [apply folders_names|].
      constructor; [|constructor]. apply numeral_isName; [exact id_numeral | discriminate].
    + destruct names; discriminate.
  - rewrite absolute_snoc, absolute_app, !append_assoc. simpl. reflexivity.
Qed.

Lemma Join_extension (ext : string) :
  noSlash ext = true -> (3 <= String.length ext)%nat ->
  Path.Join [absolute (folders ++ [ident]) +:+ ext] = absolute (folders ++ [ident +:+ ext]).
Proof.
  intros Hext Hlen. unfold Path.Join.
  rewrite filter_cons_True.
  2:{ destruct names; [contradiction|]. exact I. }
  rewrite filter_nil. cbn [Path.joinSlash].
  replace (absolute (folders ++ [ident]) +:+ ext) with (absolute (folders ++ [ident +:+ ext])).
  - apply Clean_names.
    + apply Forall_app. split; [apply folders_names|].
      constructor; [|constructor]. apply suffixed_isName; try assumption.
      apply numeral_noSlash, id_numeral.
    + destruct names; discriminate.
  - rewrite !absolute_snoc, !append_assoc. reflexivity.
Qed.

(** X8: the base directory of a mailbox being a clean absolute path
    and the identifier a numeral of at least three digits
    [c0 c1 c2 ...], the handle of the message is
    [base/c2/c1/c0/Messages/id], and [Open] opens
    [base/c2/c1/c0/Messages/id.emlx] first and, if at all, the same
    with [.partial.emlx] after it, and no other file. *)
Theorem message_file_layout (files : gmap string (list byte + OSError)) :
  exists shard,
    emlPathFromROWID ident = Done shard /\
    let m := {| pathWithoutExtension := Path.Join [absolute names; shard] |} in
    pathWithoutExtension m = absolute (folders ++ [ident]) /\
    ((Open files m).1 = [absolute (folders ++ [ident +:+ ".emlx"])] \/
     (Open files m).1 = [absolute (folders ++ [ident +:+ ".emlx"]);
                         absolute (folders ++ [ident +:+ ".partial.emlx"])]).
Proof.
  eexists. split; [apply emlPathFromROWID_numeral, id_numeral|].
  cbv zeta. cbn [pathWithoutExtension].
  rewrite Join_shard by (apply emlPathFromROWID_numeral, id_numeral).
  split; [reflexivity|].
  unfold Open. cbn [pathWithoutExtension].
  rewrite !Join_extension by (reflexivity || (simpl; lia)).
  destruct (osOpen files _) as [f1|e]; [now left|].
  destruct (negb (IsNotExist e)); [now left|].
  destruct (osOpen files _); now right.
Qed.
End Layout.

(** the identifier 0447630 below [/m/Data] *)
Lemma message_file_layout_0447630 :
  exists shard,
    emlPathFromROWID "0447630" = Done shard /\
    let m := {| pathWithoutExtension := Path.Join [absolute ["m"; "Data"]; shard] |} in
    pathWithoutExtension m = "/m/Data/4/4/0/Messages/0447630" /\
    ((Open ∅ m).1 = ["/m/Data/4/4/0/Messages/0447630.emlx"] \/
     (Open ∅ m).1 = ["/m/Data/4/4/0/Messages/0447630.emlx";
                     "/m/Data/4/4/0/Messages/0447630.partial.emlx"]).
Proof.
  apply (message_file_layout ["m"; "Data"] "0" "4" "4" "7630").
  - repeat constructor.
  - discriminate.
  - reflexivity.
Defined.

(** ** The query engine: what a call returns and when it fails *)

(** The rows a call fetches: those of the mailbox if the query names
    one, newest first, and the first [BatchResults] of them if the
    query is in batches. *)
Lemma fetch_Query (m : Mailboxes) (mq : MailboxQuery) :
  exists matching,
    (if IsEmpty (mqMailbox mq) then matching = db m
     else exists u, URL (mqMailbox mq) = Done u /\
                    matching = filter (fun r => url r = Some u) (db m)) /\
    fetch (Query m mq)
    = Done (Some (if 0 <? BatchResults mq
                  then take (Z.to_nat (BatchResults mq)) (merge_sort SQL.newer matching)
                  else merge_sort SQL.newer matching)).
Proof.
  unfold fetch, variables, Query. cbn [qmq qm query batchCount].
  destruct (IsEmpty (mqMailbox mq)) eqn:Hempty; cbn [negb].
  - exists (db m). split; [reflexivity|].
    destruct (Z.ltb_spec 0 (BatchResults mq)) as [Hb|Hb]; cbn.
    + destruct (Z.ltb_spec (BatchResults mq) 0); [lia|]. reflexivity.
    + reflexivity.
  - unfold IsEmpty in Hempty. apply orb_false_elim in Hempty as [Hacct _].
    apply bool_decide_eq_false in Hacct. unfold URL.
    destruct (mboxAccount (mqMailbox mq)) as [a|]; [|contradiction].
    eexists. split; [eexists; split; reflexivity|].
    destruct (Z.ltb_spec 0 (BatchResults mq)) as [Hb|Hb]; cbn.
    + destruct (Z.ltb_spec (BatchResults mq) 0); [lia|]. reflexivity.
    + reflexivity.
Qed.

(** X9: whatever the mailbox and the batch size, at every call the
    values handed to [db.Query] are built without a panic, the url
    of the mailbox being asked for only when the mailbox has an
    account, and they are as many as the text of the statement has
    placeholders [?]. *)
Theorem Query_values_match_placeholders (url_Parse : string -> option ParsedURL)
  (m : Mailboxes) (mq : MailboxQuery) (calls : nat) :
  let f := afterCalls url_Parse calls (Query m mq) in
  exists values,
    variables f = Done values /\
    occurrences "?" (queryText (query f)) = length values.
Proof.
  intros f. unfold f. rewrite afterCalls_Query. unfold variables, Query.
  cbn [qmq qm query batchCount].
  destruct (IsEmpty (mqMailbox mq)) eqn:Hempty; cbn [negb].
  - destruct (0 <? BatchResults mq); eexists; split; reflexivity.
  - unfold IsEmpty in Hempty. apply orb_false_elim in Hempty as [Hacct _].
    apply bool_decide_eq_false in Hacct. unfold URL.
    destruct (mboxAccount (mqMailbox mq)) as [a|]; [|contradiction].
    destruct (0 <? BatchResults mq); eexists; split; reflexivity.
Qed.

Lemma call_rows (url_Parse : string -> option ParsedURL) (f : QueryFunc)
  (rows : list Row) (msgs : list Message) :
  fetch f = Done (Some rows) ->
  (call url_Parse f).1 = Done (msgs, None) ->
  Forall2 (fun row msg => messageOf url_Parse (url2path (qm f)) row = Some msg) rows msgs.
Proof.
  intros Hfetch. unfold call. cbn [fst]. rewrite Hfetch. cbn.
  intros Hloop. apply eachRow_in_order in Hloop as (converted & -> & Hall). exact Hall.
Qed.

(** X10: a call of a query in batches returns at most [BatchResults]
    messages. *)
Theorem Query_batch_bound (url_Parse : string -> option ParsedURL)
  (m : Mailboxes) (mq : MailboxQuery) (calls : nat) (msgs : list Message) :
  0 < BatchResults mq ->
  (call url_Parse (afterCalls url_Parse calls (Query m mq))).1 = Done (msgs, None) ->
  (length msgs <= Z.to_nat (BatchResults mq))%nat.
Proof.
  intros Hb. rewrite afterCalls_Query.
  destruct (fetch_Query m mq) as (matching & _ & Hfetch). intros Hcall.
  apply (call_rows _ _ _ _ Hfetch) in Hcall. apply Forall2_length in Hcall.
  destruct (Z.ltb_spec 0 (BatchResults mq)); [|lia].
  rewrite length_take in Hcall. lia.
Qed.

(** the inbox of five messages in batches of three *)
Lemma Query_batch_of_3 :
  (length [Examples.at_ "102"; Examples.at_ "105"; Examples.at_ "103"]
   <= Z.to_nat (BatchResults inboxOf3))%nat.
Proof.
  apply (Query_batch_bound parseImap (Examples.store Examples.fiveRows) inboxOf3 1).
  - reflexivity.
  - vm_compute. reflexivity.
Defined.

(** X11: a query for a mailbox returns handles of rows of the index
    store whose url is the url of that mailbox, and of no other
    row. *)
Theorem Query_only_the_mailbox (url_Parse : string -> option ParsedURL)
  (m : Mailboxes) (mq : MailboxQuery) (calls : nat) (msgs : list Message) :
  IsEmpty (mqMailbox mq) = false ->
  (call url_Parse (afterCalls url_Parse calls (Query m mq))).1 = Done (msgs, None) ->
  exists u rows,
    URL (mqMailbox mq) = Done u /\
    Forall (fun row => row ∈ db m /\ url row = Some u) rows /\
    Forall2 (fun row msg => messageOf url_Parse (url2path m) row = Some msg) rows msgs.
Proof.
  intros Hempty. rewrite afterCalls_Query.
  destruct (fetch_Query m mq) as (matching & Hmatching & Hfetch). intros Hcall.
  apply (call_rows _ _ _ _ Hfetch) in Hcall.
  rewrite Hempty in Hmatching. destruct Hmatching as (u & Hu & ->).
  exists u. eexists. split; [exact Hu|]. split; [|exact Hcall].
  apply Forall_forall. intros row Hrow.
  assert (row ∈ merge_sort SQL.newer (filter (fun r => url r = Some u) (db m))) as Hin.
  { destruct (0 <? BatchResults mq); [|exact Hrow].
    exact (subseteq_take _ _ _ Hrow). }
  rewrite merge_sort_Permutation in Hin. apply list_elem_of_filter in Hin as [? ?]. auto.
Qed.

(** the message of another mailbox is left out *)
Lemma Query_only_the_inbox :
  exists u rows,
    URL (mqMailbox inboxOf3) = Done u /\
    Forall (fun row => row ∈ db (Examples.store Examples.mixedRows) /\ url row = Some u) rows /\
    Forall2 (fun row msg =>
               messageOf parseImap (url2path (Examples.store Examples.mixedRows)) row
               = Some msg)
      rows [Examples.at_ "103"; Examples.at_ "101"].
Proof.
  apply (Query_only_the_mailbox parseImap (Examples.store Examples.mixedRows) inboxOf3 0).
  - reflexivity.
  - vm_compute. reflexivity.
Defined.

(** X12: a query with an empty mailbox and without batches, when it
    succeeds, returns a handle for every row of the index store:
    the rows converted are the rows of the store, reordered. *)
Theorem Query_everything (url_Parse : string -> option ParsedURL)
  (m : Mailboxes) (mq : MailboxQuery) (calls : nat) (msgs : list Message) :
  IsEmpty (mqMailbox mq) = true ->
  BatchResults mq <= 0 ->
  (call url_Parse (afterCalls url_Parse calls (Query m mq))).1 = Done (msgs, None) ->
  exists rows,
    rows ≡ₚ db m /\
    Forall2 (fun row msg => messageOf url_Parse (url2path m) row = Some msg) rows msgs.
Proof.
  intros Hempty Hb. rewrite afterCalls_Query.
  destruct (fetch_Query m mq) as (matching & Hmatching & Hfetch). intros Hcall.
  apply (call_rows _ _ _ _ Hfetch) in Hcall.
  rewrite Hempty in Hmatching. subst matching.
  destruct (Z.ltb_spec 0 (BatchResults mq)); [lia|].
  eexists. split; [|exact Hcall]. apply merge_sort_Permutation.
Qed.

(** the five messages, newest first *)
Lemma Query_all_five :
  exists rows,
    rows ≡ₚ db (Examples.store Examples.fiveRows) /\
    Forall2 (fun row msg =>
               messageOf parseImap (url2path (Examples.store Examples.fiveRows)) row
               = Some msg)
      rows [Examples.at_ "102"; Examples.at_ "105"; Examples.at_ "103";
            Examples.at_ "104"; Examples.at_ "101"].
Proof.
  apply (Query_everything parseImap (Examples.store Examples.fiveRows) allOf 2).
  - reflexivity.
  - vm_compute. discriminate.
  - vm_compute. reflexivity.
Defined.

(** The loop passes over the rows that convert, whatever follows. *)
Lemma eachRow_converted (url_Parse : string -> option ParsedURL)
  (url2path : gmap string string) (pre : list Row) :
  Forall (converts url_Parse url2path) pre ->
  exists converted, forall rows acc,
    eachRow url_Parse url2path (pre ++ rows) acc
    = eachRow url_Parse url2path rows (acc ++ converted).
Proof.
  induction 1 as [|row pre [msg Hrow] _ (converted & IH)].
  - exists []. intros rows acc. now rewrite app_nil_r.
  - unfold messageOf, relativePath in Hrow.
    destruct (url row) as [u|] eqn:Hu; [|discriminate]. cbn in Hrow.
    destruct (url_Parse u) as [parsed|] eqn:Hp; [|discriminate]. cbn in Hrow.
    destruct (url2path !! _) as [basePath|] eqn:Hb; [|discriminate]. cbn in Hrow.
    destruct (emlPathFromROWID (ROWID row)) as [shard|] eqn:Hs; [|discriminate].
    eexists (_ :: converted). intros rows acc. cbn [app eachRow].
    rewrite Hu, Hp, Hb, Hs. cbn. rewrite IH, <- app_assoc. reflexivity.
Qed.

Section BadRow.
Variable url_Parse : string -> option ParsedURL.
Variables (f : QueryFunc) (pre : list Row) (bad : Row) (post : list Row).
Hypothesis fetched : fetch f = Done (Some (pre ++ bad :: post)).
Hypothesis pre_converts : Forall (converts url_Parse (url2path (qm f))) pre.

(** X13: a fetched row whose mailbox is known and whose identifier
    has fewer than three bytes makes the call panic on the index 2,
    after the rows before it were converted: the call returns
    neither the messages nor an error. *)
Theorem Query_short_identifier_panics (rel : string) :
  relativePath url_Parse bad = Some rel ->
  is_Some (url2path (qm f) !! rel) ->
  (String.length (ROWID bad) < 3)%nat ->
  (call url_Parse f).1 = Panicked (IndexOutOfRange 2 (String.length (ROWID bad))).
Proof.
  intros Hrel [basePath Hbase] Hshort. unfold call. cbn [fst]. rewrite fetched. cbn.
  destruct (eachRow_converted _ _ _ pre_converts) as (converted & ->). cbn [eachRow].
  unfold relativePath in Hrel.
  destruct (url bad) as [u|]; [|discriminate]. cbn in Hrel.
  destruct (url_Parse u) as [parsed|]; [|discriminate]. cbn in Hrel.
  injection Hrel as ->. rewrite Hbase, emlPathFromROWID_short by assumption. reflexivity.
Qed.

(** X14: a fetched row without a mailbox url, as the left join gives
    for a message whose mailbox row is missing, ends the call with
    the error of the scan and no message, whatever was converted
    before it. *)
Theorem Query_null_url_is_fatal :
  url bad = None ->
  (call url_Parse f).1 = Done ([], Some ScanNull).
Proof.
  intros Hnull. unfold call. cbn [fst]. rewrite fetched. cbn.
  destruct (eachRow_converted _ _ _ pre_converts) as (converted & ->). cbn [eachRow].
  rewrite Hnull. reflexivity.
Qed.

(** X15: the error of [url.Parse] is dropped, so a fetched row whose
    url does not parse makes the call panic on the [nil] URL. *)
Theorem Query_unparsed_url_panics (u : string) :
  url bad = Some u -> url_Parse u = None ->
  (call url_Parse f).1 = Panicked NilDereference.
Proof.
  intros Hu Hparse. unfold call. cbn [fst]. rewrite fetched. cbn.
  destruct (eachRow_converted _ _ _ pre_converts) as (converted & ->). cbn [eachRow].
  rewrite Hu, Hparse. reflexivity.
Qed.
End BadRow.

(** a row with the identifier 7 between two messages of the inbox *)
Lemma Query_identifier_7 :
  (call parseImap (Query (Examples.store (around shortRow)) allOf)).1
  = Panicked (IndexOutOfRange 2 (String.length (ROWID shortRow))).
Proof.
  apply (Query_short_identifier_panics parseImap
           (Query (Examples.store (around shortRow)) allOf)
           [Examples.message "103" 30] shortRow [Examples.message "101" 10]
           ltac:(vm_compute; reflexivity)
           ltac:(constructor; [vm_compute; eauto | constructor])
           "ACC/INBOX").
  - vm_compute. reflexivity.
  - vm_compute. eauto.
  - simpl. lia.
Defined.

(** a message without a mailbox *)
Lemma Query_message_without_mailbox :
  (call parseImap (Query (Examples.store (around orphanRow)) allOf)).1
  = Done ([], Some ScanNull).
Proof.
  apply (Query_null_url_is_fatal parseImap
           (Query (Examples.store (around orphanRow)) allOf)
           [Examples.message "103" 30] orphanRow [Examples.message "101" 10]
           ltac:(vm_compute; reflexivity)
           ltac:(constructor; [vm_compute; eauto | constructor])).
  reflexivity.
Defined.

(** a url without a scheme, which [url.Parse] rejects *)
Lemma Query_url_without_scheme :
  (call parseImap (Query (Examples.store (around oddRow)) allOf)).1
  = Panicked NilDereference.
Proof.
  apply (Query_unparsed_url_panics parseImap
           (Query (Examples.store (around oddRow)) allOf)
           [Examples.message "103" 30] oddRow [Examples.message "101" 10]
           ltac:(vm_compute; reflexivity)
           ltac:(constructor; [vm_compute; eauto | constructor])
           ":").
  - reflexivity.
  - reflexivity.
Defined.

(** ** Invariants of the directory walk *)

Lemma Node_nested_ind (P : Node -> Prop) :
  P File -> (forall e, P (Unreadable e)) ->
  (forall entries, Forall (fun e => P e.2) entries -> P (Dir entries)) ->
  forall d, P d.
Proof.
  intros HF HU HD. fix IH 1. intros [|entries|e]; [exact HF| |apply HU].
  apply HD. revert entries. fix IHes 1. intros [|[name d] entries].
  - constructor.
  - constructor; [apply IH | apply IHes].
Qed.

Section Invariant.
Variable root : string.
Variable P : Gathered -> Prop.
Variable Q : Node -> Prop.
Hypothesis Q_entries : forall entries, Q (Dir entries) -> Forall (fun e => Q e.2) entries.
Hypothesis visit_keeps : forall path name d err st,
  Q d -> P st -> P (visit root path name d err st).2.

Lemma afterCall_state (d : Node) (r : option WalkError * Gathered) :
  (Walk.afterCall d r).2 = r.2.
Proof. destruct r as [[[|e]|] st]; reflexivity. Qed.

Lemma walkEntries_keeps (path : string) (entries : list (string * Node)) :
  Forall (fun e => forall path name st,
            P st -> P (Walk.walkDir (visit root) path name e.2 st).2) entries ->
  forall st, P st -> P (Walk.walkEntries (Walk.walkDir (visit root)) path entries st).2.
Proof.
  induction 1 as [|[name d] entries Hd _ IH]; intros st Hst; [exact Hst|].
  rewrite walkEntries_cons.
  specialize (Hd (Path.Join [path; name]) name st Hst). cbn [snd] in Hd.
  destruct (Walk.walkDir (visit root) (Path.Join [path; name]) name d st)
    as [[[|e]|] st']; cbn [snd] in *; auto.
Qed.

Lemma walkDir_keeps (d : Node) :
  Q d -> forall path name st, P st -> P (Walk.walkDir (visit root) path name d st).2.
Proof.
  induction d as [| e |entries IH] using Node_nested_ind; intros Hd path name st Hst.
  - pose proof (visit_keeps path name File None st Hd Hst) as H.
    cbn [Walk.walkDir]. destruct (visit root path name File None st) as [[e|] st1];
      [rewrite afterCall_state|]; exact H.
  - pose proof (visit_keeps path name (Unreadable e) None st Hd Hst) as H.
    cbn [Walk.walkDir].
    destruct (visit root path name (Unreadable e) None st) as [[e1|] st1];
      [rewrite afterCall_state; exact H|]. cbn [snd] in H.
    pose proof (visit_keeps path name (Unreadable e) (Some e) st1 Hd H) as H2.
    destruct (visit root path name (Unreadable e) (Some e) st1) as [[e2|] st2];
      [rewrite afterCall_state|]; exact H2.
  - pose proof (visit_keeps path name (Dir entries) None st Hd Hst) as H.
    rewrite walkDir_Dir_eq.
    destruct (visit root path name (Dir entries) None st) as [[e1|] st1];
      [rewrite afterCall_state; exact H|]. cbn [snd] in H.
    apply walkEntries_keeps; [|exact H].
    pose proof (Q_entries entries Hd) as Hq.
    clear -IH Hq. induction IH as [|x l Hx _ IHl]; [constructor|].
    inversion Hq; subst. constructor; auto.
Qed.

Lemma walker_keeps (disk : Node + OSError) (st : Gathered) :
  match disk with inl d => Q d | inr _ => Q File end ->
  P st -> P (walker root disk st).2.
Proof.
  intros Hd Hst. unfold walker, Walk.WalkDir. destruct disk as [d|e].
  - pose proof (walkDir_keeps d Hd root (Walk.baseName root) st Hst) as H.
    destruct (Walk.walkDir _ _ _ _ _) as [[[|e]|] st']; exact H.
  - pose proof (visit_keeps root "" File (Some e) st Hd Hst) as H.
    destruct (visit _ _ _ _ _ _) as [[[|e']|] st']; exact H.
Qed.
End Invariant.

(** X17: whatever lies at the mail root, and whether or not the walk
    fails, every directory that the resolver records is a directory
    named [Data]: a path followed by [/Data]. *)
Theorem gatherMboxPaths_values_are_Data (homeDir : string) (disk : Node + OSError)
  (key value : string) :
  (gatherMboxPaths homeDir disk).1 !! key = Some value ->
  exists path, value = path +:+ "/Data".
Proof.
  unfold gatherMboxPaths.
  pose proof (walker_keeps (mailRoot homeDir)
    (fun st => map_Forall (fun _ v => exists path, v = path +:+ "/Data") (paths st))
    (fun _ => True)) as H.
  specialize (H ltac:(intros; now apply Forall_forall)).
  specialize (fun Hv => H Hv disk {| paths := ∅; mboxPaths := ∅ |}).
  destruct (walker _ _ _) as [err st]. cbn [fst snd] in *.
  intros Hlook. eapply H; [| |apply map_Forall_empty|exact Hlook].
  - clear. intros path name d err st _ Hst. unfold visit.
    destruct err; [exact Hst|]. destruct (IsDir d); [|exact Hst].
    destruct (_ || _); [exact Hst|].
    assert (map_Forall (fun _ v => exists path, v = path +:+ "/Data")
              (set_fold (matchMarked (mailRoot homeDir) path name) (paths st) (mboxPaths st))).
    { apply (set_fold_ind_L
               (fun m _ => map_Forall (fun _ v => exists path, v = path +:+ "/Data") m));
        [exact Hst|].
      intros p X m _ Hm. unfold matchMarked.
      destruct (Strings.HasPrefix path p); [|exact Hm].
      case_bool_decide; [|exact Hm].
      apply map_Forall_insert_2; [|exact Hm]. exists path. reflexivity. }
    destruct (statEntry d "Info.plist"); assumption.
  - destruct disk; exact I.
Qed.

(** the directory recorded for [ACC] *)
Lemma gatherMboxPaths_oneMailbox_value :
  exists path, "/Users/u/Library/Mail/V10/ACC/INBOX.mbox/Data" = path +:+ "/Data".
Proof.
  apply (gatherMboxPaths_values_are_Data Examples.home (inl Examples.oneMailbox) "ACC").
  vm_compute. reflexivity.
Defined.

(** X18: in a mail library without a marker file [Info.plist] in any
    directory the resolver records nothing. *)
Theorem gatherMboxPaths_no_marker (homeDir : string) (d : Node) :
  unmarked d = true -> (gatherMboxPaths homeDir (inl d)).1 = ∅.
Proof.
  intros Hd. unfold gatherMboxPaths.
  pose proof (walker_keeps (mailRoot homeDir)
    (fun st => paths st = ∅ /\ mboxPaths st = ∅)
    (fun d => unmarked d = true)) as H.
  destruct (walker _ _ _) as [err st] eqn:E. cbn [fst].
  specialize (fun H1 H2 => H H1 H2 (inl d) {| paths := ∅; mboxPaths := ∅ |}).
  rewrite E in H. apply H; [| |exact Hd|auto].
  - clear. intros entries. cbn [unmarked]. intros [_ H]%andb_prop.
    apply Forall_forall. intros e He. rewrite forallb_forall in H. apply H.
    now apply list_elem_of_In.
  - clear. intros path name d err st Hd [Hp Hm]. unfold visit.
    destruct err; [auto|]. destruct (IsDir d); [|auto].
    destruct (_ || _); [auto|]. rewrite Hm, set_fold_empty.
    destruct d as [|entries|e]; cbn [statEntry]; auto.
    cbn [unmarked] in Hd. apply andb_prop in Hd as [Hd _].
    apply negb_true_iff in Hd. rewrite Hd. auto.
Qed.

(** a mailbox folder without its marker file *)
Lemma gatherMboxPaths_unmarked_tree :
  (gatherMboxPaths Examples.home
     (inl (Dir [("ACC", Dir [("INBOX.mbox", Dir [("D0", Dir [("Data", Dir [])])])])]))).1
  = ∅.
Proof.
  apply (gatherMboxPaths_no_marker Examples.home
           (Dir [("ACC", Dir [("INBOX.mbox", Dir [("D0", Dir [("Data", Dir [])])])])])).
  vm_compute. reflexivity.
Defined.

Lemma walkDir_readable (root : string) (d : Node) :
  readable d = true ->
  forall path name st, (Walk.walkDir (visit root) path name d st).1 = None.
Proof.
  induction d as [| e |entries IH] using Node_nested_ind; intros Hd path name st.
  - destruct st; reflexivity.
  - discriminate.
  - rewrite walkDir_Dir_eq. unfold visit at 1. cbn [IsDir].
    destruct (_ || _); [reflexivity|].
    cbn [readable] in Hd.
    match goal with |- (match ?r with _ => _ end).1 = _ =>
      assert (exists st1, r = (None, st1)) as [st1 ->]
        by (destruct (statEntry _ _); eauto) end.
    clear -IH Hd. revert st1.
    induction IH as [|[n d] entries Hx _ IHl]; intros st1; [reflexivity|].
    cbn [forallb] in Hd. apply andb_prop in Hd as [Hd1 Hd2].
    rewrite walkEntries_cons. specialize (Hx Hd1 (Path.Join [path; n]) n st1).
    destruct (Walk.walkDir _ _ _ _ _) as [r st2]. cbn [fst snd] in Hx. subst r.
    now apply IHl.
Qed.

(** X19: the resolver returns an error only if a directory of the
    mail library cannot be listed: on a tree whose directories are
    all readable it returns none. *)
Theorem gatherMboxPaths_readable (homeDir : string) (d : Node) :
  readable d = true -> (gatherMboxPaths homeDir (inl d)).2 = None.
Proof.
  intros Hd. unfold gatherMboxPaths, walker, Walk.WalkDir.
  pose proof (walkDir_readable (mailRoot homeDir) d Hd (mailRoot homeDir)
                (Walk.baseName (mailRoot homeDir)) {| paths := ∅; mboxPaths := ∅ |}) as H.
  destruct (Walk.walkDir _ _ _ _ _) as [r st]. cbn [fst] in H. subst r. reflexivity.
Qed.

(** a mail library that can be read throughout *)
Lemma gatherMboxPaths_oneMailbox_readable :
  (gatherMboxPaths Examples.home (inl Examples.oneMailbox)).2 = None.
Proof.
  apply (gatherMboxPaths_readable Examples.home Examples.oneMailbox). reflexivity.
Defined.

Lemma hollow_names (entries : list (string * Node)) :
  (map (fun e => (e.1, if reserved e.1 && IsDir e.2 then Dir [] else hollow e.2)) entries).*1
  = entries.*1.
Proof. induction entries as [|[n d] es IH]; [reflexivity|]. cbn. now rewrite IH. Qed.

Lemma walkDir_reserved (root path name : string) (d : Node) (st : Gathered) :
  reserved name = true -> Walk.walkDir (visit root) path name d st = (None, st).
Proof.
  unfold reserved. intros H. destruct d; cbn [Walk.walkDir visit IsDir]; try reflexivity;
    rewrite H; reflexivity.
Qed.

Lemma walkDir_hollow (root : string) (d : Node) :
  forall path name st,
    Walk.walkDir (visit root) path name (hollow d) st
    = Walk.walkDir (visit root) path name d st.
Proof.
  induction d as [| e |entries IH] using Node_nested_ind; intros path name st;
    [reflexivity|reflexivity|].
  cbn [hollow]. rewrite !walkDir_Dir_eq.
  set (emptied := map (fun e => (e.1, if reserved e.1 && IsDir e.2 then Dir [] else hollow e.2))
                    entries).
  assert (forall st, visit root path name (Dir emptied) None st
                     = visit root path name (Dir entries) None st) as ->.
  { intros st0. unfold visit, emptied. cbn [IsDir statEntry]. now rewrite hollow_names. }
  destruct (visit root path name (Dir entries) None st) as [[e1|] st1]; [reflexivity|].
  unfold emptied. clear -IH. revert st1.
  induction IH as [|[n d] entries Hx _ IHl]; intros st1; [reflexivity|].
  cbn [map fst snd]. rewrite !walkEntries_cons.
  destruct (reserved n && IsDir d) eqn:E.
  - apply andb_prop in E as [E _]. rewrite !walkDir_reserved by assumption. apply IHl.
  - cbn [fst snd] in Hx. rewrite Hx.
    destruct (Walk.walkDir _ _ _ _ _) as [[[|e]|] st2]; try reflexivity. apply IHl.
Qed.

(** X20: what lies in a directory named [Data] or [MailData] has no
    part in the result, and neither has whether it can be listed:
    the resolver gives the same map and the same error on the tree
    and on the tree with those directories emptied. *)
Theorem gatherMboxPaths_ignores_Data (homeDir : string) (d : Node) :
  gatherMboxPaths homeDir (inl (hollow d)) = gatherMboxPaths homeDir (inl d).
Proof.
  unfold gatherMboxPaths, walker, Walk.WalkDir. now rewrite walkDir_hollow.
Qed.

(** ** The resolver on the layout of a mail library *)

Lemma noDot_app (a b : string) : noDot (a +:+ b) = noDot a && noDot b.
Proof.
  induction a as [|c a IH]; simpl; [reflexivity|]. rewrite IH. now rewrite andb_assoc.
Qed.

Lemma removeFrom_keeps_plain (old s t : string) :
  noDot s = true ->
  Strings.removeFrom (String "." old) 0 (s +:+ t)
  = s +:+ Strings.removeFrom (String "." old) 0 t.
Proof.
  induction s as [|c s IH]; [reflexivity|].
  intros [Hc Hs]%andb_prop. apply negb_true_iff in Hc.
  change (String c s +:+ t) with (String c (s +:+ t)).
  change (Strings.removeFrom (String "." old) 0 (String c (s +:+ t)))
    with (if Strings.HasPrefix (String c (s +:+ t)) (String "." old)
          then Strings.removeFrom (String "." old) (String.length (String "." old) - 1) (s +:+ t)
          else String c (Strings.removeFrom (String "." old) 0 (s +:+ t))).
  simpl Strings.HasPrefix. rewrite Hc, IH by assumption. reflexivity.
Qed.

(** the extension of a folder is removed where no other dot is *)
Lemma RemoveAll_mbox (s : string) :
  noDot s = true -> Strings.RemoveAll (s +:+ ".mbox") ".mbox" = s.
Proof.
  intros Hs. unfold Strings.RemoveAll. rewrite removeFrom_keeps_plain by assumption.
  change (Strings.removeFrom ".mbox" 0 ".mbox") with "". apply append_empty_r.
Qed.

(** the root is removed from the front of a path of two elements
    below it, and nowhere else *)
Lemma RemoveAll_root (root' U T : string) :
  noSlash root' = false -> noSlash U = true -> noSlash T = true ->
  Strings.RemoveAll (String "/" root' +:+ U +:+ "/" +:+ T) (String "/" root')
  = U +:+ "/" +:+ T.
Proof.
  intros Hroot HU HT. unfold Strings.RemoveAll.
  set (root := String "/" root').
  change (root +:+ U +:+ "/" +:+ T) with (String "/" (root' +:+ U +:+ "/" +:+ T)).
  change (Strings.removeFrom root 0 (String "/" (root' +:+ U +:+ "/" +:+ T)))
    with (if Strings.HasPrefix (root +:+ U +:+ "/" +:+ T) root
          then Strings.removeFrom root (String.length root - 1) (root' +:+ U +:+ "/" +:+ T)
          else String "/" (Strings.removeFrom root 0 (root' +:+ U +:+ "/" +:+ T))).
  rewrite HasPrefix_app.
  replace (String.length root - 1)%nat with (String.length root') by (simpl; lia).
  rewrite removeFrom_skip. unfold root. rewrite removeFrom_keeps_name by assumption.
  f_equal.
  change ("/" +:+ T) with (String "/" T).
  change (Strings.removeFrom (String "/" root') 0 (String "/" T))
    with (if Strings.HasPrefix (String "/" T) (String "/" root')
          then Strings.removeFrom (String "/" root') (String.length (String "/" root') - 1) T
          else String "/" (Strings.removeFrom (String "/" root') 0 T)).
  assert (Strings.HasPrefix (String "/" T) (String "/" root') = false) as ->.
  { simpl. destruct (Strings.HasPrefix T root') eqn:E; [|reflexivity].
    apply HasPrefix_noSlash in E; [congruence | assumption]. }
  rewrite removeFrom_all_kept; [reflexivity | assumption | reflexivity].
Qed.

Lemma noDot_not_marker (s : string) : noDot s = true -> s <> "Info.plist".
Proof. intros H ->. discriminate. Qed.

Lemma mbox_not_marker (s : string) : s +:+ ".mbox" <> "Info.plist".
Proof.
  intros E.
  destruct s as [|a [|b [|c [|d [|e [|f s]]]]]]; try discriminate E.
  apply (f_equal String.length) in E. simpl in E. rewrite length_append in E.
  simpl in E. lia.
Qed.

Section StandardLayout.
Variables (hsegs : list string) (U Nm D : string).
Variables (pre post : list (string * Node)) (inner : Node).

Local Abbreviation home := (absolute hsegs).
Local Abbreviation box := (Nm +:+ ".mbox").
Local Abbreviation names0 := (hsegs ++ ["Library"; "Mail"; "V10"]).

Hypothesis home_names : Forall (fun s => isName s = true) hsegs.
Hypothesis U_name : isName U = true.
Hypothesis U_walked : reserved U = false.
Hypothesis U_plain : noDot U = true.
Hypothesis Nm_name : noSlash Nm = true.
Hypothesis Nm_plain : noDot Nm = true.
Hypothesis D_name : isName D = true.
Hypothesis D_walked : reserved D = false.
Hypothesis D_fresh :
  Forall (fun s => Strings.HasPrefix s D = false) (names0 ++ [U; box]).
Hypothesis pre_files : Forall (fun e : string * Node => e.2 = File) pre.
Hypothesis post_files : Forall (fun e : string * Node => e.2 = File) post.
Hypothesis marker : "Info.plist" ∈ (pre ++ post).*1.

Lemma mailRoot_rooted : exists root', mailRoot home = String "/" root' /\ noSlash root' = false.
Proof.
  unfold mailRoot. destruct hsegs as [|h hs]; simpl.
  - eexists. split; reflexivity.
  - eexists. split; [reflexivity|]. rewrite !noSlash_app. simpl.
    now rewrite !andb_false_r.
Qed.

End StandardLayout.


(** ** Setting up: errors and the mailboxes of the accounts *)

Lemma substring_all (s : string) : String.substring 0 (String.length s) s = s.
Proof. induction s as [|c s IH]; simpl; [reflexivity|]. now rewrite IH. Qed.

Lemma substring_append (p s : string) :
  String.substring (String.length p) (String.length s) (p +:+ s) = s.
Proof. induction p as [|c p IH]; simpl; [apply substring_all | exact IH]. Qed.

Lemma substring_split (s : string) (n : nat) :
  (n <= String.length s)%nat ->
  exists p, s = p +:+ String.substring n (String.length s - n) s /\ String.length p = n.
Proof.
  revert n. induction s as [|c s IH]; intros [|n] Hn; simpl in *.
  - exists "". auto.
  - lia.
  - exists "". rewrite substring_all. auto.
  - destruct (IH n ltac:(lia)) as (p & Hp & Hlen). exists (String c p).
    simpl. rewrite <- Hp. auto.
Qed.

Lemma HasSuffix_iff (s suffix : string) :
  Strings.HasSuffix s suffix = true <-> exists p, s = p +:+ suffix.
Proof.
  unfold Strings.HasSuffix. split.
  - intros [Hlen Heq]%andb_prop. apply Nat.leb_le in Hlen. apply String.eqb_eq in Heq.
    destruct (substring_split s (String.length s - String.length suffix)) as (p & Hp & _);
      [lia|].
    replace (String.length s - (String.length s - String.length suffix))%nat
      with (String.length suffix) in Hp by lia.
    rewrite Heq in Hp. eauto.
  - intros [p ->]. rewrite length_append.
    replace (String.length p + String.length suffix - String.length suffix)%nat
      with (String.length p) by lia.
    rewrite substring_append, String.eqb_refl, andb_true_r. apply Nat.leb_le. lia.
Qed.

Lemma list_ascii_app (a b : string) :
  list_ascii_of_string (a +:+ b) = (list_ascii_of_string a ++ list_ascii_of_string b)%list.
Proof. induction a as [|c a IH]; simpl; [reflexivity|]. now rewrite IH. Qed.

(** two strings that are equal end alike *)
Lemma append_ends (p q a b : string) :
  p +:+ a = q +:+ b ->
  (rev (list_ascii_of_string a) ++ rev (list_ascii_of_string p)
   = rev (list_ascii_of_string b) ++ rev (list_ascii_of_string q))%list.
Proof.
  intros H. apply (f_equal list_ascii_of_string) in H. rewrite !list_ascii_app in H.
  apply (f_equal (@rev ascii)) in H. now rewrite !rev_app_distr in H.
Qed.

Lemma HasSuffix_errno (x : string) (e : OSError) :
  Strings.HasSuffix (x +:+ ": " +:+ errnoText e) "operation not permitted"
  = bool_decide (e = EPERM).
Proof.
  destruct (bool_decide (e = EPERM)) eqn:E.
  - apply bool_decide_eq_true in E. subst e. apply HasSuffix_iff.
    exists (x +:+ ": "). now rewrite append_assoc.
  - apply bool_decide_eq_false in E. apply not_true_is_false.
    intros [p Hp]%HasSuffix_iff. rewrite <- append_assoc in Hp.
    destruct e; [| | contradiction |]; cbn [errnoText] in Hp.
    + replace ((x +:+ ": ") +:+ "no such file or directory")
        with (((x +:+ ": ") +:+ "no") +:+ " such file or directory") in Hp
        by (rewrite !append_assoc; reflexivity).
      apply append_ends in Hp. discriminate Hp.
    + replace ((x +:+ ": ") +:+ "permission denied")
        with (x +:+ ": permission denied") in Hp
        by (rewrite !append_assoc; reflexivity).
      replace (p +:+ "operation not permitted")
        with ((p +:+ "oper") +:+ "ation not permitted") in Hp
        by (rewrite !append_assoc; reflexivity).
      apply append_ends in Hp. discriminate Hp.
    + replace ((x +:+ ": ") +:+ "input/output error")
        with (x +:+ ": input/output error") in Hp
        by (rewrite !append_assoc; reflexivity).
      replace (p +:+ "operation not permitted")
        with ((p +:+ "ope") +:+ "ration not permitted") in Hp
        by (rewrite !append_assoc; reflexivity).
      apply append_ends in Hp. discriminate Hp.
Qed.

Lemma HasSuffix_path_error (op path : string) (e : OSError) :
  Strings.HasSuffix (ErrorText (FsPathError op path (Errno e))) "operation not permitted"
  = bool_decide (e = EPERM).
Proof.
  cbn [ErrorText].
  replace (op +:+ " " +:+ path +:+ ": " +:+ errnoText e)
    with ((op +:+ " " +:+ path) +:+ ": " +:+ errnoText e)
    by (rewrite !append_assoc; reflexivity).
  apply HasSuffix_errno.
Qed.

(** X22: of the errors of a file operation, which end with the text
    of their error number, [wrapMaybePermissionsError] wraps the
    ones with [EPERM] ("operation not permitted") into the advice on
    full-disk access and returns every other one as it is, a denied
    permission ([EACCES]) among them, whatever the operation and the
    path. *)
Theorem wrapMaybePermissionsError_path_error (op path : string) (e : OSError) :
  let err := FsPathError op path (Errno e) in
  wrapMaybePermissionsError err
  = if bool_decide (e = EPERM)
    then WrapError (fullDiskAccess +:+ op +:+ " " +:+ path +:+ ": operation not permitted") err
    else err.
Proof.
  intros err. unfold wrapMaybePermissionsError, err. rewrite HasSuffix_path_error.
  case_bool_decide as He; [|reflexivity]. subst e. reflexivity.
Qed.

(** *** The records of the script *)

Lemma field_some (record : list string) (i : nat) :
  (i < length record)%nat -> field record i = Done (default "" (record !! i)).
Proof.
  intros Hi. unfold field. destruct (record !! i) eqn:E; [reflexivity|].
  apply lookup_ge_None in E. lia.
Qed.

Lemma eachRecord_ok (records : list (list string)) (acc : list Mailbox) :
  Forall (fun record => (3 <= length record)%nat) records ->
  eachRecord ∅ records acc = Done (acc ++ (mailboxOf <$> records)).
Proof.
  intros H. revert acc. induction H as [|record records Hr _ IH]; intros acc.
  - cbn. now rewrite app_nil_r.
  - cbn [eachRecord]. rewrite !field_some by lia. cbn.
    rewrite lookup_empty, IH, <- app_assoc. reflexivity.
Qed.

Lemma eachRecord_short (first : list string) (others : list (list string))
  (acc : list Mailbox) :
  (length first < 3)%nat ->
  eachRecord ∅ (first :: others) acc
  = Panicked (IndexOutOfRange (length first) (length first)).
Proof.
  intros Hshort. cbn [eachRecord]. unfold field.
  destruct first as [|f0 [|f1 [|f2 first]]]; cbn in *; try reflexivity. lia.
Qed.

(** *** The mailboxes by name *)

Lemma addMailbox_lookup (byAccountName : gmap string (gmap string Mailbox))
  (mbox : Mailbox) :
  is_Some (mboxAccount mbox) ->
  exists byAccountName',
    addMailbox byAccountName mbox = Done byAccountName' /\
    forall account name,
      lookup2 byAccountName' account name
      = if decide (named account name mbox) then Some mbox
        else lookup2 byAccountName account name.
Proof.
  destruct mbox as [nm [a|]]; intros [a' Ha]; [|discriminate]. clear a' Ha.
  unfold addMailbox. cbn [mboxAccount mboxName]. eexists. split; [reflexivity|].
  intros account name. unfold lookup2.
  destruct (decide (acctName a = account)) as [<-|Hne].
  - rewrite lookup_insert_eq.
    destruct (decide (nm = name)) as [<-|Hn].
    + rewrite lookup_insert_eq. rewrite decide_True by (split; reflexivity). reflexivity.
    + rewrite lookup_insert_ne by assumption.
      rewrite decide_False by (intros [_ ?]; contradiction).
      case_bool_decide as Hnone.
      * rewrite lookup_insert_eq, Hnone. cbn. apply lookup_empty.
      * destruct (byAccountName !! acctName a); [reflexivity | contradiction].
  - rewrite lookup_insert_ne by assumption.
    rewrite decide_False by (intros [[= ?] _]; contradiction).
    case_bool_decide; [|reflexivity]. now rewrite lookup_insert_ne.
Qed.

Lemma eachMailbox_lookup (mboxes : list Mailbox)
  (byAccountName : gmap string (gmap string Mailbox)) :
  Forall (fun mbox => is_Some (mboxAccount mbox)) mboxes ->
  exists byAccountName',
    eachMailbox byAccountName mboxes = Done byAccountName' /\
    forall account name,
      lookup2 byAccountName' account name
      = match last (filter (named account name) mboxes) with
        | Some mbox => Some mbox
        | None => lookup2 byAccountName account name
        end.
Proof.
  intros H. revert byAccountName.
  induction H as [|mbox mboxes Hm _ IH]; intros byAccountName.
  - eexists. split; [reflexivity|]. reflexivity.
  - destruct (addMailbox_lookup byAccountName mbox Hm) as (by1 & Hadd & Hby1).
    destruct (IH by1) as (by2 & Hrest & Hby2).
    exists by2. split; [cbn [eachMailbox]; rewrite Hadd; exact Hrest|].
    intros account name. rewrite Hby2, Hby1, filter_cons.
    destruct (decide (named account name mbox)); [|reflexivity].
    rewrite last_cons. destruct (last (filter _ mboxes)); reflexivity.
Qed.

Lemma mailboxOf_account (records : list (list string)) :
  Forall (fun mbox => is_Some (mboxAccount mbox)) (mailboxOf <$> records).
Proof. apply Forall_fmap, Forall_forall. intros r _. cbn. eauto. Qed.

(** X23: the records of the script having three fields each and the
    walk succeeding, [NewMailboxes] returns no error, the paths of
    the walk and the index store, and [Mailbox(account, name)] finds
    exactly the mailboxes of the records: the mailbox of the last
    record with that account name and that mailbox name, and none
    when there is no such record. Accounts are told apart by their
    names, not by their identifiers. *)
Theorem NewMailboxes_lookup (records : list (list string)) (homeDir : string)
  (disk : Node + OSError) (op path : string) (index : list Row)
  (paths : gmap string string) :
  Forall (fun record => (3 <= length record)%nat) records ->
  gatherMboxPaths homeDir disk = (paths, None) ->
  exists m,
    NewMailboxes (inl records) homeDir disk op path index = Done (m, None) /\
    url2path m = paths /\ db m = index /\
    forall account name,
      lookupMailbox m account name
      = last (filter (named account name) (mailboxOf <$> records)).
Proof.
  intros Hrec Hwalk. unfold NewMailboxes, getMailboxes.
  rewrite eachRecord_ok by assumption. cbn.
  destruct (eachMailbox_lookup (mailboxOf <$> records) ∅ (mailboxOf_account records))
    as (by' & -> & Hby). cbn. rewrite Hwalk.
  eexists. split; [reflexivity|]. cbn. split; [reflexivity|]. split; [reflexivity|].
  intros account name. unfold lookupMailbox. cbn.
  specialize (Hby account name). unfold lookup2 in Hby. rewrite Hby.
  destruct (last _); [reflexivity|]. now rewrite lookup_empty.
Qed.

(** two accounts named alike and a mailbox listed once *)
Lemma NewMailboxes_three_records :
  exists m,
    NewMailboxes (inl threeRecords) Examples.home (inl Examples.oneMailbox) "" ""
      Examples.fiveRows
    = Done (m, None) /\
    url2path m = {[ "ACC" := "/Users/u/Library/Mail/V10/ACC/INBOX.mbox/Data" ]} /\
    db m = Examples.fiveRows /\
    forall account name,
      lookupMailbox m account name
      = last (filter (named account name) (mailboxOf <$> threeRecords)).
Proof.
  apply (NewMailboxes_lookup threeRecords Examples.home (inl Examples.oneMailbox) "" ""
           Examples.fiveRows).
  - repeat constructor.
  - vm_compute. reflexivity.
Defined.

(** of two accounts of the same name the one listed last is found *)
Example Mailbox_of_accounts_named_alike :
  (r ← NewMailboxes (inl threeRecords) Examples.home (inl Examples.oneMailbox) "" ""
         Examples.fiveRows;
   mret (lookupMailbox r.1 "me" "INBOX", lookupMailbox r.1 "ACC" "INBOX"))
  = Done (Some {| mboxName := "INBOX";
                  mboxAccount := Some {| acctName := "me"; acctUUID := "ACC2" |} |},
          None).
Proof. vm_compute. reflexivity. Qed.

(** X24: when the walk fails, [NewMailboxes] returns the error of the
    walk, with the advice on full-disk access before its text
    exactly when the error number is [EPERM], and leaves the path
    map empty, whatever the walk had gathered. *)
Theorem NewMailboxes_walk_error (records : list (list string)) (homeDir : string)
  (disk : Node + OSError) (op path : string) (index : list Row)
  (paths : gmap string string) (e : OSError) :
  Forall (fun record => (3 <= length record)%nat) records ->
  gatherMboxPaths homeDir disk = (paths, Some e) ->
  exists m err,
    NewMailboxes (inl records) homeDir disk op path index = Done (m, Some err) /\
    url2path m = ∅ /\
    ErrorText err
    = (if bool_decide (e = EPERM) then fullDiskAccess else "")
      +:+ op +:+ " " +:+ path +:+ ": " +:+ errnoText e.
Proof.
  intros Hrec Hwalk. unfold NewMailboxes, getMailboxes.
  rewrite eachRecord_ok by assumption. cbn.
  destruct (eachMailbox_lookup (mailboxOf <$> records) ∅ (mailboxOf_account records))
    as (by' & -> & Hby). cbn. rewrite Hwalk.
  eexists _, _. split; [reflexivity|]. cbn [url2path]. split; [reflexivity|].
  unfold wrapMaybePermissionsError. rewrite HasSuffix_path_error.
  case_bool_decide; reflexivity.
Qed.

(** a mail root that may not be read *)
Lemma NewMailboxes_no_full_disk_access :
  exists m err,
    NewMailboxes (inl threeRecords) Examples.home (inr EPERM) "lstat"
      (mailRoot Examples.home) Examples.fiveRows = Done (m, Some err) /\
    url2path m = ∅ /\
    ErrorText err
    = (if bool_decide (EPERM = EPERM) then fullDiskAccess else "")
      +:+ "lstat" +:+ " " +:+ mailRoot Examples.home +:+ ": " +:+ errnoText EPERM.
Proof.
  apply (NewMailboxes_walk_error threeRecords Examples.home (inr EPERM) "lstat"
           (mailRoot Examples.home) Examples.fiveRows ∅ EPERM).
  - repeat constructor.
  - vm_compute. reflexivity.
Defined.

(** X25: the records of the output all have the number of fields of
    the first one. When the first record has fewer than three
    fields, the loop of [getMailboxes] panics at that record on the
    first field that is missing, and [NewMailboxes] with it,
    whatever the walk and the index store would give. *)
Theorem NewMailboxes_short_record_panics (first : list string)
  (others : list (list string)) (homeDir : string) (disk : Node + OSError)
  (op path : string) (index : list Row) :
  (length first < 3)%nat ->
  Forall (fun record => length record = length first) others ->
  NewMailboxes (inl (first :: others)) homeDir disk op path index
  = Panicked (IndexOutOfRange (length first) (length first)).
Proof.
  intros Hshort _. unfold NewMailboxes, getMailboxes.
  rewrite eachRecord_short by assumption. reflexivity.
Qed.

(** output lines that are not records of mailboxes *)
Lemma NewMailboxes_log_line_panics :
  NewMailboxes (inl (["a note"] :: [["another"]])) Examples.home
    (inl Examples.oneMailbox) "" "" Examples.fiveRows
  = Panicked (IndexOutOfRange (length ["a note"]) (length ["a note"])).
Proof.
  apply (NewMailboxes_short_record_panics ["a note"] [["another"]]).
  - simpl. lia.
  - repeat constructor.
Defined.

(** ** The example program *)

(** [main] once the mailboxes are set up and the mailbox is chosen *)
Lemma main_after_setup (url_Parse : string -> option ParsedURL)
  (ACCOUNT_NAME : string) (script : list (list string) + GoError)
  (homeDir : string) (disk : Node + OSError) (op path : string) (index : list Row)
  (files : gmap string (list byte + OSError)) (mboxes : Mailboxes) (mbox : Mailbox) :
  NewMailboxes script homeDir disk op path index = Done (mboxes, None) ->
  chosen mboxes ACCOUNT_NAME = Some mbox ->
  main url_Parse ACCOUNT_NAME script homeDir disk op path index files
  = match (call url_Parse (Query mboxes {| mqMailbox := mbox; BatchResults := 10 |})).1 with
    | Panicked p => Panics (Runtime p)
    | Done (_, Some err) => Panics (OfQuery err)
    | Done (messages, None) => openFirst files messages
    end.
Proof.
  intros Hsetup Hchosen. unfold main, chosen in *. rewrite Hsetup.
  destruct (String.eqb ACCOUNT_NAME ""); cbn [negb] in *.
  - injection Hchosen as <-. reflexivity.
  - rewrite Hchosen. reflexivity.
Qed.

(** X26: when the setup succeeds and the index store has no message
    for the mailbox that [main] asks for, [main] panics on
    [messages[0]] with an index out of range; it does not report
    that there is no message. *)
Theorem main_no_message_panics (url_Parse : string -> option ParsedURL)
  (ACCOUNT_NAME : string) (script : list (list string) + GoError)
  (homeDir : string) (disk : Node + OSError) (op path : string) (index : list Row)
  (files : gmap string (list byte + OSError)) (mboxes : Mailboxes) (mbox : Mailbox) :
  NewMailboxes script homeDir disk op path index = Done (mboxes, None) ->
  chosen mboxes ACCOUNT_NAME = Some mbox ->
  fetch (Query mboxes {| mqMailbox := mbox; BatchResults := 10 |}) = Done (Some []) ->
  main url_Parse ACCOUNT_NAME script homeDir disk op path index files
  = Panics (Runtime (IndexOutOfRange 0 0)).
Proof.
  intros Hsetup Hchosen Hfetch.
  rewrite (main_after_setup _ _ _ _ _ _ _ _ _ _ _ Hsetup Hchosen).
  unfold call. cbn [fst]. rewrite Hfetch. reflexivity.
Qed.

(** an index store without messages *)
Lemma main_empty_store :
  main parseImap "me" (inl threeRecords) Examples.home (inl Examples.oneMailbox) "" "" [] ∅
  = Panics (Runtime (IndexOutOfRange 0 0)).
Proof.
  refine (main_no_message_panics parseImap "me" (inl threeRecords) Examples.home
            (inl Examples.oneMailbox) "" "" [] ∅ _ _ _ _ _).
  - vm_compute. reflexivity.
  - vm_compute. reflexivity.
  - vm_compute. reflexivity.
Defined.

Lemma StronglySorted_head (rows : list Row) (first : Row) (rest : list Row) :
  StronglySorted SQL.newer rows -> rows = first :: rest ->
  Forall (fun row => date_received row <= date_received first) rows.
Proof.
  intros Hs ->. inversion Hs as [|? ? _ Hall]; subst.
  constructor; [lia | exact Hall].
Qed.

(** X27: with no account chosen, the reader that [main] hands to
    [mail.ReadMessage] is the one [Open] returns for the newest
    message of the whole index store, whatever its mailbox. *)
Theorem main_opens_newest (url_Parse : string -> option ParsedURL)
  (script : list (list string) + GoError)
  (homeDir : string) (disk : Node + OSError) (op path : string) (index : list Row)
  (files : gmap string (list byte + OSError)) (mboxes : Mailboxes) (r : IO.Reader) :
  NewMailboxes script homeDir disk op path index = Done (mboxes, None) ->
  main url_Parse "" script homeDir disk op path index files = ReadMessage r ->
  exists row message,
    row ∈ index /\
    Forall (fun other => date_received other <= date_received row) index /\
    messageOf url_Parse (url2path mboxes) row = Some message /\
    (Open files message).2 = (Some r, None).
Proof.
  intros Hsetup.
  rewrite (main_after_setup _ "" _ _ _ _ _ _ _ _ {| mboxName := ""; mboxAccount := None |} Hsetup)
    by reflexivity.
  assert (db mboxes = index) as Hdb.
  { revert Hsetup. unfold NewMailboxes.
    destruct (getMailboxes script) as [[mbs [err|]]|]; cbn; try discriminate.
    destruct (eachMailbox ∅ mbs); cbn; [|discriminate].
    destruct (gatherMboxPaths homeDir disk) as [ps [e|]]; [discriminate|].
    now intros [= <-]. }
  set (mq := {| mqMailbox := {| mboxName := ""; mboxAccount := None |}; BatchResults := 10 |}).
  destruct (fetch_Query mboxes mq) as (matching & Hmatching & Hfetch).
  cbn in Hmatching. subst matching. cbn [BatchResults mq] in Hfetch.
  change (0 <? 10) with true in Hfetch. cbv iota in Hfetch.
  destruct ((call url_Parse (Query mboxes mq)).1) as [[messages [err|]]|] eqn:Hcall;
    try discriminate.
  apply (call_rows _ _ _ _ Hfetch) in Hcall.
  destruct messages as [|message messages]; [discriminate|]. cbn [openFirst].
  destruct ((Open files message).2) as [[rd|] [err|]] eqn:Hopen; try discriminate.
  intros [= ->].
  apply Forall2_cons_inv_r in Hcall as (row & rows & Hrow & _ & Hrows).
  pose proof (@StronglySorted_merge_sort _ SQL.newer _ newer_transitive newer_total
                (db mboxes)) as Hsorted.
  destruct (merge_sort SQL.newer (db mboxes)) as [|first sorted] eqn:Hms;
    [rewrite take_nil in Hrows; discriminate|].
  cbn in Hrows. injection Hrows as <- _.
  pose proof (StronglySorted_head _ _ _ Hsorted eq_refl) as Hnewest.
  rewrite <- Hms in Hnewest.
  assert (merge_sort SQL.newer (db mboxes) ≡ₚ db mboxes) as Hperm
    by apply merge_sort_Permutation.
  exists first, message. rewrite <- Hdb. split; [|split; [|split]].
  - rewrite <- Hperm, Hms. apply elem_of_cons. now left.
  - now rewrite <- Hperm.
  - exact Hrow.
  - exact Hopen.
Qed.

(** the message received last, at time 50 *)
Lemma main_reads_newest :
  exists row message,
    row ∈ Examples.fiveRows /\
    Forall (fun other => date_received other <= date_received row) Examples.fiveRows /\
    messageOf parseImap {[ "ACC/INBOX" := "/Users/u/Library/Mail/V10/ACC/INBOX.mbox/D0/Data" ]}
      row = Some message /\
    (Open {[ "/Users/u/Library/Mail/V10/ACC/INBOX.mbox/D0/Data/2/0/1/Messages/102.emlx"
             := inl newest ]} message).2
    = (Some (IO.Limited {| IO.R := {| content := newest; pos := 2 |}; IO.N := 2 |}), None).
Proof.
  refine (main_opens_newest parseImap (inl threeRecords) (absolute ["Users"; "u"])
            (inl (Dir [("ACC", mailboxTree "INBOX.mbox" "D0" [("Info.plist", File)] []
                                 (Dir []))]))
            "" "" Examples.fiveRows
            {[ "/Users/u/Library/Mail/V10/ACC/INBOX.mbox/D0/Data/2/0/1/Messages/102.emlx"
               := inl newest ]}
            {| byAccountName := _;
               url2path := {[ "ACC/INBOX" := "/Users/u/Library/Mail/V10/ACC/INBOX.mbox/D0/Data" ]};
               db := Examples.fiveRows |}
            _ _ _).
  - vm_compute. reflexivity.
  - vm_compute. reflexivity.
Defined.
